(** * secureconfig: an encrypted key/value store with a binary container

    A shallow embedding of the Go package [secureconfig] (binary-container
    variant): the AES-GCM envelope ([Encrypt]/[Decrypt]), the record table
    ([Store]/[Retrieve]/[ListKeys]/[Delete]) and the container codec
    ([writeSecretsFile]/[loadDB]).

    Conventions of the embedding:
    - a Go [string] is a [string] (a sequence of 8-bit characters), a Go
      [[]byte] is a [list byte]; [[]byte(s)] is [String.list_byte_of_string]
      and [string(b)] is [String.string_of_list_byte];
    - Go's [int] is 64 bits wide; every [int] of the package is a length or an
      offset bounded by a length plus 2^32, so it is written as an unbounded
      [Z]; [uint32] conversions keep their wrap-around ([uint32]);
    - a slice expression [data[lo:hi]] out of range panics, which is the third
      constructor of [outcome];
    - [range] over a Go map visits the entries in an unspecified order: every
      function that ranges takes the order as a function [ord] applied to the
      entries of the map, and theorems hold for every [ord] that permutes. *)

From Stdlib Require Import ZArith Lia.
From Stdlib.Strings Require Import Byte Ascii.
From Stdlib Require String.
From stdpp Require Import base list strings gmap fin_maps.

Open Scope Z_scope.

(** ** Go primitives *)

Abbreviation bytes := (list byte).
(** the type of [c.DB], a Go [map[string]string] *)
Abbreviation table := (gmap string string).

(** [len(b)] for a byte slice and [len(s)] for a string *)
Definition len (b : bytes) : Z := Z.of_nat (length b).
Definition slen (s : string) : Z := Z.of_nat (String.length s).

(** [[]byte(s)] and [string(b)] *)
Definition to_bytes (s : string) : bytes := String.list_byte_of_string s.
Definition to_string (b : bytes) : string := String.string_of_list_byte b.

(** the numeric value of a byte, and the truncating conversion [byte(x)] *)
Definition byteZ (b : byte) : Z := Z.of_N (Byte.to_N b).
Definition byte_of_Z (x : Z) : byte :=
  match Byte.of_N (Z.to_N (x mod 256)) with
  | Some b => b
  | None => x00
  end.

(** the truncating conversion [uint32(x)] *)
Definition uint32 (x : Z) : Z := x mod 2 ^ 32.

(** [data[lo:hi]]: [None] stands for the run-time panic of a slice expression
    whose bounds are out of range *)
Definition slice (data : bytes) (lo hi : Z) : option bytes :=
  if (0 <=? lo) && (lo <=? hi) && (hi <=? len data)
  then Some (take (Z.to_nat (hi - lo)) (drop (Z.to_nat lo) data))
  else None.

(** [binary.BigEndian.Uint32(b)]; it indexes [b[3]] first and so panics on a
    slice shorter than four bytes *)
Definition BigEndian_Uint32 (b : bytes) : option Z :=
  match b with
  | b0 :: b1 :: b2 :: b3 :: _ =>
      Some (Z.lor (Z.lor (Z.lor (byteZ b3) (Z.shiftl (byteZ b2) 8))
                         (Z.shiftl (byteZ b1) 16))
                  (Z.shiftl (byteZ b0) 24))
  | _ => None
  end.

(** [binary.BigEndian.PutUint32(b, v)] on a fresh [make([]byte, 4)] *)
Definition BigEndian_PutUint32 (v : Z) : bytes :=
  [ byte_of_Z (Z.shiftr v 24); byte_of_Z (Z.shiftr v 16);
    byte_of_Z (Z.shiftr v 8); byte_of_Z v ].

(** ** Errors and outcomes *)

(** One constructor per [fmt.Errorf] message of the package. *)
Inductive error : Type :=
  | ErrGenerateKey          (* failed to generate key *)
  | ErrKeyMissingInDB       (* key not found in database *)
  | ErrParseKey             (* failed to parse key *)
  | ErrCreateCipher         (* failed to create cipher *)
  | ErrEncryptKey           (* failed to encrypt key *)
  | ErrEncryptValue         (* failed to encrypt value *)
  | ErrKeyNotFound (key : string)   (* key not found: %s *)
  | ErrGenerateNonce        (* failed to generate nonce *)
  | ErrCiphertextTooShort   (* ciphertext too short *)
  | ErrDecrypt              (* failed to decrypt *)
  | ErrReadConfig           (* failed to read config file *)
  | ErrFileTooShort         (* file too short *)
  | ErrInvalidFormat        (* invalid file format *)
  | ErrUnsupportedVersion (version : Z)  (* unsupported version: %d *)
  | ErrShortEntryCount      (* file too short for entry count *)
  | ErrShortKeyLength       (* file too short for key length *)
  | ErrShortKeyData         (* file too short for key data *)
  | ErrShortValueLength     (* file too short for value length *)
  | ErrShortValueData       (* file too short for value data *)
  | ErrCreateDirectory      (* failed to create directory *)
  | ErrWriteConfig.         (* failed to write config file *)


(** What a call can do: return a value, return an error, or panic. *)
Inductive outcome (A : Type) : Type :=
  | Ok (a : A)
  | Err (e : error)
  | Panic.
Arguments Ok {A} a.
Arguments Err {A} e.
Arguments Panic {A}.

(** [outcome] is a monad: a call that fails or panics ends the caller. *)
Global Instance outcome_ret : MRet outcome := @Ok.
Global Instance outcome_bind : MBind outcome := fun A B f m =>
  match m with
  | Ok a => f a
  | Err e => Err e
  | Panic => Panic
  end.

(** an operation of the run time that panics instead of returning *)
Definition must {A} (o : option A) : outcome A :=
  match o with
  | Some a => Ok a
  | None => Panic
  end.

(** [if c { return fmt.Errorf(...) }] *)
Definition fail_if (c : bool) (e : error) : outcome unit :=
  if c then Err e else Ok tt.

(** ** The container codec *)

Definition MagicHeader : string := "SCFG".
Definition Version : Z := 1.

(** One iteration of the loop of [loadDB]: the entry read at [offset] and the
    offset after it. *)
Definition readEntry (data : bytes) (offset : Z) : outcome (string * string * Z) :=
  fail_if (len data <? offset + 4) ErrShortKeyLength ;;
  b ← must (slice data offset (offset + 4));
  keyLen ← must (BigEndian_Uint32 b);
  let offset := offset + 4 in
  fail_if (len data <? offset + keyLen) ErrShortKeyData ;;
  kb ← must (slice data offset (offset + keyLen));
  let key := to_string kb in
  let offset := offset + keyLen in
  fail_if (len data <? offset + 4) ErrShortValueLength ;;
  b ← must (slice data offset (offset + 4));
  valueLen ← must (BigEndian_Uint32 b);
  let offset := offset + 4 in
  fail_if (len data <? offset + valueLen) ErrShortValueData ;;
  vb ← must (slice data offset (offset + valueLen));
  let value := to_string vb in
  let offset := offset + valueLen in
  Ok (key, value, offset).

(** The loop [for i := uint32(0); i < numEntries; i++] of [loadDB], with the
    table built so far; an error leaves the partly filled table in [c.DB]. *)
Fixpoint readEntries (data : bytes) (n : nat) (offset : Z) (db : table)
  : table * outcome unit :=
  match n with
  | O => (db, Ok tt)
  | S n' =>
      match readEntry data offset with
      | Ok (key, value, offset') =>
          readEntries data n' offset' (<[key := value]> db)
      | Err e => (db, Err e)
      | Panic => (db, Panic)
      end
  end.

(** The checks of [loadDB] before the loop: magic, version and entry count. *)
Definition readHeader (data : bytes) : outcome Z :=
  fail_if (len data <? 8) ErrFileTooShort ;;
  m ← must (slice data 0 4);
  fail_if (negb (String.eqb (to_string m) MagicHeader)) ErrInvalidFormat ;;
  b ← must (slice data 4 8);
  version ← must (BigEndian_Uint32 b);
  fail_if (negb (version =? Version)) (ErrUnsupportedVersion version) ;;
  let offset := 8 in
  fail_if (len data <? offset + 4) ErrShortEntryCount ;;
  b ← must (slice data offset (offset + 4));
  must (BigEndian_Uint32 b).

(** [loadDB] on the bytes read from the file: [db0] is [c.DB] before the call,
    the result is [c.DB] after it and what the call returns. *)
Definition decode (db0 : table) (data : bytes) : table * outcome unit :=
  match readHeader data with
  | Ok numEntries => readEntries data (Z.to_nat numEntries) 12 ∅
  | Err e => (db0, Err e)
  | Panic => (db0, Panic)
  end.

(** The bytes [writeSecretsFile] puts in its buffer for one entry. *)
Definition encodeEntry (kv : string * string) : bytes :=
  BigEndian_PutUint32 (uint32 (slen kv.1)) ++ to_bytes kv.1 ++
  BigEndian_PutUint32 (uint32 (slen kv.2)) ++ to_bytes kv.2.

(** The buffer of [writeSecretsFile]: [n] is [len(c.DB)] and [entries] are the
    entries in the order the [range] visits them. *)
Definition encode (n : nat) (entries : list (string * string)) : bytes :=
  to_bytes MagicHeader ++ BigEndian_PutUint32 Version ++
  BigEndian_PutUint32 (uint32 (Z.of_nat n)) ++
  flat_map encodeEntry entries.

(** [c.DB[key] = value] for every entry of [l], first to last. *)
Definition insert_all (l : list (string * string)) (db : table) : table :=
  fold_left (fun db kv => <[kv.1 := kv.2]> db) l db.

(** An entry the layout can hold: both lengths fit the 32-bit length fields. *)
Definition representable (kv : string * string) : Prop :=
  slen kv.1 < 2 ^ 32 /\ slen kv.2 < 2 ^ 32.

(** A length check of [loadDB] followed by the slice it guards. *)
Definition read_at (data : bytes) (offset n : Z) (e : error) : outcome bytes :=
  fail_if (len data <? offset + n) e ;;
  must (slice data offset (offset + n)).

(** The order in which a [range] visits the entries of a map: any one. *)
Definition permutes (ord : list (string * string) -> list (string * string)) : Prop :=
  forall l, ord l ≡ₚ l.

(** A container the layout can hold: the entry count and every length fit
    their 32-bit fields. *)
Definition representable_db (c : table) : Prop :=
  Z.of_nat (size c) < 2 ^ 32 /\ map_Forall (fun k v => representable (k, v)) c.


(** A value of 2^32 bytes, one more than a length field can express. *)
Definition huge_value : string := to_string (repeat "a"%byte (Z.to_nat (2 ^ 32))).

(** ** encoding/base64, [StdEncoding] *)

Definition encodeStd : string :=
  "ABCDEFGHIJKLMNOPQRSTUVWXYZabcdefghijklmnopqrstuvwxyz0123456789+/".

(** the character of a 6-bit value, and the value of a character *)
Definition b64_char (n : Z) : byte :=
  nth (Z.to_nat n) (to_bytes encodeStd) "A"%byte.

Fixpoint index_of (c : byte) (l : bytes) (i : Z) : option Z :=
  match l with
  | [] => None
  | x :: l' => if Byte.eqb x c then Some i else index_of c l' (i + 1)
  end.

Definition b64_index (c : byte) : option Z := index_of c (to_bytes encodeStd) 0.

(** the 24-bit group of three bytes, and its four 6-bit digits *)
Definition b64_group (a b c : byte) : Z := byteZ a * 65536 + byteZ b * 256 + byteZ c.
Definition b64_digit (val : Z) (i : Z) : byte := b64_char (val / 64 ^ (3 - i) mod 64).

Fixpoint b64_encode (src : bytes) : bytes :=
  match src with
  | [] => []
  | [a] =>
      let val := b64_group a x00 x00 in
      [b64_digit val 0; b64_digit val 1; "="%byte; "="%byte]
  | [a; b] =>
      let val := b64_group a b x00 in
      [b64_digit val 0; b64_digit val 1; b64_digit val 2; "="%byte]
  | a :: b :: c :: rest =>
      let val := b64_group a b c in
      [b64_digit val 0; b64_digit val 1; b64_digit val 2; b64_digit val 3]
      ++ b64_encode rest
  end.

(** [base64.StdEncoding.EncodeToString] *)
Definition EncodeToString (src : bytes) : string := to_string (b64_encode src).

Definition is_newline (c : byte) : bool := Byte.eqb c x0a || Byte.eqb c x0d.

(** Decoding, on input without its line breaks: groups of four characters,
    the last of which may be padded with one or two '='; the bits of a padded
    group that reach past its last byte are not checked. *)
Fixpoint b64_decode (s : bytes) : option bytes :=
  match s with
  | [] => Some []
  | c0 :: c1 :: c2 :: c3 :: rest =>
      match b64_index c0, b64_index c1 with
      | Some s0, Some s1 =>
          match b64_index c2, b64_index c3 with
          | Some s2, Some s3 =>
              let val := s0 * 262144 + s1 * 4096 + s2 * 64 + s3 in
              match b64_decode rest with
              | Some out =>
                  Some (byte_of_Z (val / 65536) :: byte_of_Z (val / 256)
                          :: byte_of_Z val :: out)
              | None => None
              end
          | Some s2, None =>
              let val := s0 * 262144 + s1 * 4096 + s2 * 64 in
              if Byte.eqb c3 "="%byte && bool_decide (rest = [])
              then Some [byte_of_Z (val / 65536); byte_of_Z (val / 256)]
              else None
          | None, _ =>
              let val := s0 * 262144 + s1 * 4096 in
              if Byte.eqb c2 "="%byte && Byte.eqb c3 "="%byte
                 && bool_decide (rest = [])
              then Some [byte_of_Z (val / 65536)]
              else None
          end
      | _, _ => None
      end
  | _ => None
  end.

(** [base64.StdEncoding.DecodeString]: carriage returns and line feeds are
    ignored; [None] is its [CorruptInputError]. *)
Definition DecodeString (s : string) : option bytes :=
  b64_decode (List.filter (fun c => negb (is_newline c)) (to_bytes s)).

(** ** fmt: the verb [%x] on byte slices *)

Definition hex_char (n : Z) : byte :=
  nth (Z.to_nat n) (to_bytes "0123456789abcdef") "0"%byte.

(** [fmt.Sprintf("%x", b)] *)
Definition Sprintf_x (b : bytes) : string :=
  to_string (flat_map (fun c => [hex_char (byteZ c / 16); hex_char (byteZ c mod 16)]) b).

Definition hexDigit (c : byte) : option Z :=
  let d := byteZ c in
  if (48 <=? d) && (d <=? 57) then Some (d - 48)
  else if (97 <=? d) && (d <=? 102) then Some (d - 97 + 10)
  else if (65 <=? d) && (d <=? 70) then Some (d - 65 + 10)
  else None.

(** the pairs of hex digits at the head of the input; a digit without its
    pair is an error *)
Fixpoint hexString (s : bytes) : option bytes :=
  match s with
  | [] => Some []
  | c1 :: s' =>
      match hexDigit c1 with
      | None => Some []
      | Some v1 =>
          match s' with
          | [] => None
          | c2 :: s'' =>
              match hexDigit c2 with
              | None => None
              | Some v2 =>
                  match hexString s'' with
                  | Some out => Some (byte_of_Z (v1 * 16 + v2) :: out)
                  | None => None
                  end
              end
          end
      end
  end.

Definition is_blank (c : byte) : bool :=
  Byte.eqb c " "%byte || Byte.eqb c x09 || Byte.eqb c x0b || Byte.eqb c x0c
  || Byte.eqb c x0d.

Fixpoint skipSpace (s : bytes) : bytes :=
  match s with
  | c :: s' => if is_blank c then skipSpace s' else s
  | [] => []
  end.

(** [fmt.Sscanf(str, "%x", &b)] for a byte slice [b]: blanks are skipped, then
    hex pairs are read up to the first character that is not a hex digit;
    input with no pair at all is an error. [None] is the error. *)
Definition Sscanf_x (str : string) : option bytes :=
  match hexString (skipSpace (to_bytes str)) with
  | Some (b :: out) => Some (b :: out)
  | _ => None
  end.

(** ** crypto/cipher: the [AEAD] interface *)

(** The methods of [cipher.AEAD]. [Seal] appends to [dst]; [Open] returns
    [None] when authentication fails. *)
Record AEAD : Type := {
  NonceSize : Z;
  Overhead : Z;
  Seal : bytes -> bytes -> bytes -> bytes -> bytes;
    (* dst, nonce, plaintext, additionalData *)
  Open : bytes -> bytes -> bytes -> bytes -> option bytes
    (* dst, nonce, ciphertext, additionalData *)
}.

(** The contract of the interface that the package relies on: [Seal] appends
    its output to [dst], and [Open] undoes [Seal] under the same nonce and
    additional data. *)
Class LawfulAEAD (G : AEAD) : Prop := {
  nonce_size_nonneg : 0 <= NonceSize G;
  seal_appends : forall dst nonce plaintext ad,
    Seal G dst nonce plaintext ad = dst ++ Seal G [] nonce plaintext ad;
  open_seal : forall nonce plaintext ad,
    len nonce = NonceSize G ->
    Open G [] nonce (Seal G [] nonce plaintext ad) ad = Some plaintext
}.

(** ** The world outside the package *)

(** The files by path, whether [os.MkdirAll] and [os.WriteFile] fail, and the
    bytes [crypto/rand.Reader] will deliver. *)
Record World : Type := {
  files : gmap string bytes;
  mkdir_fails : bool;
  write_fails : bool;
  entropy : bytes
}.

(** [io.ReadFull(rand.Reader, buf)] for a buffer of [n] bytes: [None] when the
    source cannot fill it. *)
Definition ReadFull (w : World) (n : Z) : option bytes * World :=
  if len (entropy w) <? n
  then (None, {| files := files w; mkdir_fails := mkdir_fails w;
                 write_fails := write_fails w; entropy := [] |})
  else (Some (take (Z.to_nat n) (entropy w)),
        {| files := files w; mkdir_fails := mkdir_fails w;
           write_fails := write_fails w;
           entropy := drop (Z.to_nat n) (entropy w) |}).

(** [os.WriteFile(filename, data, 0600)] when it succeeds *)
Definition WriteFile (w : World) (filename : string) (data : bytes) : World :=
  {| files := <[filename := data]> (files w); mkdir_fails := mkdir_fails w;
     write_fails := write_fails w; entropy := entropy w |}.

(** ** The store *)


(** [GCM] is [nil] until [NewConfigWithFile] has built the cipher. *)
Record Config : Type := {
  ConfigFile : string;
  Key : bytes;
  GCM : option AEAD;
  DB : table
}.

Definition set_DB (c : Config) (db : table) : Config :=
  {| ConfigFile := ConfigFile c; Key := Key c; GCM := GCM c; DB := db |}.

(** [findDataFile]: the file name in the current directory, whether or not it
    exists there (the look-up in the home directory is commented out); what it
    prints is not modelled. *)
Definition findDataFile (w : World) (filename : string) : string :=
  match files w !! filename with
  | Some _ => filename
  | None => filename
  end.

(** [Encrypt]: a nonce from the random source, then nonce ∥ sealed text. *)
Definition Encrypt (c : Config) (value : string) (w : World) : outcome bytes * World :=
  match GCM c with
  | None => (Panic, w)
  | Some gcm =>
      match ReadFull w (NonceSize gcm) with
      | (None, w') => (Err ErrGenerateNonce, w')
      | (Some nonce, w') =>
          let ciphertext := Seal gcm nonce nonce (to_bytes value) [] in
          (Ok ciphertext, w')
      end
  end.

(** [Decrypt] *)
Definition Decrypt (c : Config) (data : bytes) : outcome string :=
  gcm ← must (GCM c);
  let nonceSize := NonceSize gcm in
  fail_if (len data <? nonceSize) ErrCiphertextTooShort ;;
  nonce ← must (slice data 0 nonceSize);
  ciphertext ← must (slice data nonceSize (len data));
  match Open gcm [] nonce ciphertext [] with
  | None => Err ErrDecrypt
  | Some plaintext => Ok (to_string plaintext)
  end.

(** [writeSecretsFile]: the whole table, in the order [ord] of the [range]. *)
Definition writeSecretsFile (ord : list (string * string) -> list (string * string))
    (c : Config) (w : World) : outcome unit * World :=
  let filename := findDataFile w (ConfigFile c) in
  if mkdir_fails w then (Err ErrCreateDirectory, w) else
  let buf := encode (size (DB c)) (ord (map_to_list (DB c))) in
  if write_fails w then (Err ErrWriteConfig, w) else
  (Ok tt, WriteFile w filename buf).

(** [loadDB] *)
Definition loadDB (c : Config) (w : World) : outcome unit * Config :=
  let filename := findDataFile w (ConfigFile c) in
  match files w !! filename with
  | None => (Err ErrReadConfig, c)
  | Some data =>
      let '(db, r) := decode (DB c) data in (r, set_DB c db)
  end.

(** [Store]: the table is updated before the file is written, so a failed
    write leaves the new entry in [c.DB]. *)
Definition Store (ord : list (string * string) -> list (string * string))
    (c : Config) (key value : string) (w : World) : outcome unit * Config * World :=
  match Encrypt c key w with
  | (Err _, w1) => (Err ErrEncryptKey, c, w1)
  | (Panic, w1) => (Panic, c, w1)
  | (Ok encKeyBytes, w1) =>
      let encKey := EncodeToString encKeyBytes in
      match Encrypt c value w1 with
      | (Err _, w2) => (Err ErrEncryptValue, c, w2)
      | (Panic, w2) => (Panic, c, w2)
      | (Ok encValueBytes, w2) =>
          let encValue := EncodeToString encValueBytes in
          let c' := set_DB c (<[encKey := encValue]> (DB c)) in
          let '(r, w3) := writeSecretsFile ord c' w2 in
          (r, c', w3)
      end
  end.

(** The loop of [Retrieve] over the entries in the order of the [range]. *)
Fixpoint Retrieve_range (c : Config) (key : string) (entries : list (string * string))
  : outcome string :=
  match entries with
  | [] => Err (ErrKeyNotFound key)
  | (k, v) :: rest =>
      if String.eqb k "k" then Retrieve_range c key rest else
      match DecodeString k with
      | None => Retrieve_range c key rest
      | Some keyBytes =>
          match Decrypt c keyBytes with
          | Panic => Panic
          | Err _ => Retrieve_range c key rest
          | Ok decKey =>
              if String.eqb decKey key then
                match DecodeString v with
                | None => Retrieve_range c key rest
                | Some valueBytes => Decrypt c valueBytes
                end
              else Retrieve_range c key rest
          end
      end
  end.

(** [Retrieve] *)
Definition Retrieve (ord : list (string * string) -> list (string * string))
    (c : Config) (key : string) : outcome string :=
  Retrieve_range c key (ord (map_to_list (DB c))).

(** The loop of [ListKeys]. *)
Fixpoint ListKeys_range (c : Config) (entries : list (string * string))
    (keys : list string) : outcome (list string) :=
  match entries with
  | [] => Ok keys
  | (k, _) :: rest =>
      if String.eqb k "k" then ListKeys_range c rest keys else
      match DecodeString k with
      | None => ListKeys_range c rest keys
      | Some keyBytes =>
          match Decrypt c keyBytes with
          | Panic => Panic
          | Err _ => ListKeys_range c rest keys
          | Ok decKey => ListKeys_range c rest (keys ++ [decKey])
          end
      end
  end.

(** [ListKeys] *)
Definition ListKeys (ord : list (string * string) -> list (string * string))
    (c : Config) : outcome (list string) :=
  ListKeys_range c (ord (map_to_list (DB c))) [].

(** The loop of [Delete]: the map key of the first entry whose key opens to
    [key], if there is one. *)
Fixpoint Delete_range (c : Config) (key : string) (entries : list (string * string))
  : outcome (option string) :=
  match entries with
  | [] => Ok None
  | (k, _) :: rest =>
      if String.eqb k "k" then Delete_range c key rest else
      match DecodeString k with
      | None => Delete_range c key rest
      | Some keyBytes =>
          match Decrypt c keyBytes with
          | Panic => Panic
          | Err _ => Delete_range c key rest
          | Ok decKey =>
              if String.eqb decKey key then Ok (Some k)
              else Delete_range c key rest
          end
      end
  end.

(** [Delete]: [ord] is the order of its own [range], [ord'] the order in
    which [writeSecretsFile] then writes the table. *)
Definition Delete (ord ord' : list (string * string) -> list (string * string))
    (c : Config) (key : string) (w : World) : outcome unit * Config * World :=
  match Delete_range c key (ord (map_to_list (DB c))) with
  | Panic => (Panic, c, w)
  | Err e => (Err e, c, w)
  | Ok None => (Err (ErrKeyNotFound key), c, w)
  | Ok (Some k) =>
      let c' := set_DB c (delete k (DB c)) in
      let '(r, w') := writeSecretsFile ord' c' w in
      (r, c', w')
  end.

(** [NewConfigWithFile]; [aesgcm key] stands for the AES-GCM instance that
    [aes.NewCipher] and [cipher.NewGCM] build from a key of 16, 24 or 32
    bytes ([cipher.NewGCM] does not fail on an AES block). On an error the
    caller gets no [Config]. *)
Definition NewConfigWithFile (ord : list (string * string) -> list (string * string))
    (aesgcm : bytes -> AEAD) (filename : string) (w : World)
  : outcome Config * World :=
  let c := {| ConfigFile := filename; Key := []; GCM := None; DB := ∅ |} in
  let configPath := findDataFile w (ConfigFile c) in
  let created :=
    match files w !! configPath with
    | Some _ => (Ok c, w)
    | None =>
        match ReadFull w 32 with
        | (None, w1) => (Err ErrGenerateKey, w1)
        | (Some key, w1) =>
            let c := set_DB c (<["k" := Sprintf_x key]> (DB c)) in
            match writeSecretsFile ord c w1 with
            | (Ok _, w2) => (Ok c, w2)
            | (Err e, w2) => (Err e, w2)
            | (Panic, w2) => (Panic, w2)
            end
        end
    end in
  match created with
  | (Ok c, w) =>
      match loadDB c w with
      | (Ok _, c) =>
          match DB c !! "k" with
          | None => (Err ErrKeyMissingInDB, w)
          | Some keyStr =>
              match Sscanf_x keyStr with
              | None => (Err ErrParseKey, w)
              | Some key =>
                  if bool_decide (len key = 16 \/ len key = 24 \/ len key = 32)
                  then (Ok {| ConfigFile := ConfigFile c; Key := key;
                              GCM := Some (aesgcm key); DB := DB c |}, w)
                  else (Err ErrCreateCipher, w)
              end
          end
      | (Err e, _) => (Err e, w)
      | (Panic, _) => (Panic, w)
      end
  | (r, w) => (r, w)
  end.


(** ** A reference cipher for running the definitions

    A small cipher with the shape of an AEAD: the plaintext is shifted by a
    mask drawn from key and nonce, and followed by a 16-byte checksum of key,
    nonce, plaintext and additional data. It meets the contract [LawfulAEAD]
    and has no cryptographic strength; examples are evaluated with it. *)

Global Instance byte_eq_dec : EqDecision byte := Byte.byte_eq_dec.

Definition byte_sum (l : bytes) : Z := fold_right (fun b acc => byteZ b + acc) 0 l.

Definition ref_mask (key nonce : bytes) : Z := byte_sum (key ++ nonce).

Definition ref_tag (key nonce plaintext ad : bytes) : bytes :=
  repeat (byte_of_Z (7 + byte_sum (key ++ nonce ++ plaintext ++ ad))) 16.

Definition ref_seal (key dst nonce plaintext ad : bytes) : bytes :=
  dst ++ map (fun b => byte_of_Z (byteZ b + ref_mask key nonce)) plaintext
      ++ ref_tag key nonce plaintext ad.

Definition ref_open (key dst nonce ciphertext ad : bytes) : option bytes :=
  if len ciphertext <? 16 then None else
  let n := (length ciphertext - 16)%nat in
  let plaintext :=
    map (fun b => byte_of_Z (byteZ b - ref_mask key nonce)) (take n ciphertext) in
  if bool_decide (drop n ciphertext = ref_tag key nonce plaintext ad)
  then Some (dst ++ plaintext) else None.

Definition refGCM (key : bytes) : AEAD :=
  {| NonceSize := 12; Overhead := 16; Seal := ref_seal key; Open := ref_open key |}.

(** ** Vocabulary for the properties of the store *)

(** The test the loops of [Retrieve], [ListKeys] and [Delete] make on a map
    key [k]: it is not the reserved "k", it is valid base64, and the bytes
    open to [key]. *)
Definition opens_to (c : Config) (k key : string) : bool :=
  negb (String.eqb k "k") &&
  match DecodeString k with
  | Some keyBytes =>
      match Decrypt c keyBytes with
      | Ok decKey => String.eqb decKey key
      | _ => false
      end
  | None => false
  end.

(** A map key that the loops pass over because it cannot be opened: it is
    not valid base64, or [Decrypt] rejects its bytes. *)
Definition key_fails_to_open (c : Config) (k : string) : bool :=
  match DecodeString k with
  | Some keyBytes =>
      match Decrypt c keyBytes with
      | Err _ => true
      | _ => false
      end
  | None => true
  end.

(** The plaintext key that [ListKeys] reports for a map key, if any. *)
Definition opened_key (c : Config) (k : string) : option string :=
  if String.eqb k "k" then None else
  match DecodeString k with
  | Some keyBytes =>
      match Decrypt c keyBytes with
      | Ok decKey => Some decKey
      | _ => None
      end
  | None => None
  end.

(** The map keys of [c.DB] whose entry opens to [key]. *)
Definition openers (c : Config) (key : string) : list string :=
  List.filter (fun k => opens_to c k key) (map_to_list (DB c)).*1.

(** ** A store to run the definitions on *)

Definition demo_key : bytes := map byte_of_Z (seqZ 0 32).

Definition demo_world : World :=
  {| files := ∅; mkdir_fails := false; write_fails := false;
     entropy := map byte_of_Z (seqZ 0 128) |}.

(** the store that [NewConfigWithFile] creates in [demo_world] *)
Definition demo_config : Config :=
  {| ConfigFile := "config"; Key := demo_key; GCM := Some (refGCM demo_key);
     DB := {[ "k" := Sprintf_x demo_key ]} |}.

(** the world after [NewConfigWithFile] has created the store *)
Definition demo_world1 : World :=
  (NewConfigWithFile id refGCM "config" demo_world).2.

(** [Store("a", "old")], then [Store("a", "new")] on the result *)
Definition demo_stored1 : outcome unit * Config * World :=
  Store id demo_config "a" "old" demo_world1.

Definition demo_stored2 : outcome unit * Config * World :=
  Store id demo_stored1.1.2 "a" "new" demo_stored1.2.

(** the map key under which the first [Store] put its entry *)
Definition demo_sealed_key : string := "ICEiIyQlJicoKSorExoaGhoaGhoaGhoaGhoaGho=".

(** a store with one entry whose key opens to "a" and whose value is not
    base64 *)
Definition demo_bad_value : Config :=
  set_DB demo_config (<[demo_sealed_key := "not base64!"]> (DB demo_config)).

(** The second half of [NewConfigWithFile], from [c.loadDB()] on: load the
    table, read the key from the reserved record, build the cipher. *)
Definition openStore (aesgcm : bytes -> AEAD) (c : Config) (w : World)
  : outcome Config * World :=
  match loadDB c w with
  | (Ok _, c) =>
      match DB c !! "k" with
      | None => (Err ErrKeyMissingInDB, w)
      | Some keyStr =>
          match Sscanf_x keyStr with
          | None => (Err ErrParseKey, w)
          | Some key =>
              if bool_decide (len key = 16 \/ len key = 24 \/ len key = 32)
              then (Ok {| ConfigFile := ConfigFile c; Key := key;
                          GCM := Some (aesgcm key); DB := DB c |}, w)
              else (Err ErrCreateCipher, w)
          end
      end
  | (Err e, _) => (Err e, w)
  | (Panic, _) => (Panic, w)
  end.


(** ** The JSON variant of the package

    The same store with a JSON file instead of the binary container: here
    [Encrypt] and [Decrypt] work on base64 text, and the table holds the
    values that [json.Unmarshal] produced. Its [Store], [Delete], [loadDB]
    and [writeSecretsFile] go through encoding/json and are not modelled. *)
Module Legacy.

Inductive error : Type :=
  | ErrGenerateNonce        (* failed to generate nonce *)
  | ErrDecodeBase64         (* failed to decode base64 *)
  | ErrCiphertextTooShort   (* ciphertext too short *)
  | ErrDecrypt              (* failed to decrypt *)
  | ErrKeyNotFound (key : string).  (* key not found: %s *)

Inductive outcome (A : Type) : Type :=
  | Ok (a : A)
  | Err (e : error)
  | Panic.
Arguments Ok {A} a.
Arguments Err {A} e.
Arguments Panic {A}.

(** a value of the table, an [interface{}]: a string, or anything else that
    JSON can hold *)
Inductive value : Type :=
  | VString (s : string)
  | VOther.

Record Config : Type := {
  ConfigFile : string;
  Key : bytes;
  GCM : option AEAD;
  DB : gmap string value
}.

(** [Encrypt]: the base64 text of nonce ∥ sealed text *)
Definition Encrypt (c : Config) (v : string) (w : World) : outcome string * World :=
  match GCM c with
  | None => (Panic, w)
  | Some gcm =>
      match ReadFull w (NonceSize gcm) with
      | (None, w') => (Err ErrGenerateNonce, w')
      | (Some nonce, w') =>
          let ciphertext := Seal gcm nonce nonce (to_bytes v) [] in
          (Ok (EncodeToString ciphertext), w')
      end
  end.

(** [Decrypt] *)
Definition Decrypt (c : Config) (v : string) : outcome string :=
  match DecodeString v with
  | None => Err ErrDecodeBase64
  | Some data =>
      match GCM c with
      | None => Panic
      | Some gcm =>
          let nonceSize := NonceSize gcm in
          if len data <? nonceSize then Err ErrCiphertextTooShort else
          match slice data 0 nonceSize, slice data nonceSize (len data) with
          | Some nonce, Some ciphertext =>
              match Open gcm [] nonce ciphertext [] with
              | None => Err ErrDecrypt
              | Some plaintext => Ok (to_string plaintext)
              end
          | _, _ => Panic
          end
      end
  end.

(** The loop of [Retrieve]. *)
Fixpoint Retrieve_range (c : Config) (key : string) (entries : list (string * value))
  : outcome string :=
  match entries with
  | [] => Err (ErrKeyNotFound key)
  | (k, v) :: rest =>
      if String.eqb k "k" then Retrieve_range c key rest else
      match Decrypt c k with
      | Panic => Panic
      | Err _ => Retrieve_range c key rest
      | Ok decKey =>
          if String.eqb decKey key then
            match v with
            | VString valueStr => Decrypt c valueStr
            | VOther => Retrieve_range c key rest
            end
          else Retrieve_range c key rest
      end
  end.

(** [Retrieve] *)
Definition Retrieve (ord : list (string * value) -> list (string * value))
    (c : Config) (key : string) : outcome string :=
  Retrieve_range c key (ord (map_to_list (DB c))).

(** The loop of [ListKeys]. *)
Fixpoint ListKeys_range (c : Config) (entries : list (string * value))
    (keys : list string) : outcome (list string) :=
  match entries with
  | [] => Ok keys
  | (k, _) :: rest =>
      if String.eqb k "k" then ListKeys_range c rest keys else
      match Decrypt c k with
      | Panic => Panic
      | Err _ => ListKeys_range c rest keys
      | Ok decKey => ListKeys_range c rest (keys ++ [decKey])
      end
  end.

(** [ListKeys] *)
Definition ListKeys (ord : list (string * value) -> list (string * value))
    (c : Config) : outcome (list string) :=
  ListKeys_range c (ord (map_to_list (DB c))) [].

End Legacy.

(** a JSON-variant store with the key of [demo_config] *)
Definition demo_legacy (db : gmap string Legacy.value) : Legacy.Config :=
  {| Legacy.ConfigFile := "secureconfig.json"; Legacy.Key := demo_key;
     Legacy.GCM := Some (refGCM demo_key); Legacy.DB := db |}.

(* ================================================================== *)
(** * Properties *)

(** ** Bytes, lengths and slices *)

Lemma len_app (a b : bytes) : len (a ++ b) = len a + len b.
Proof. unfold len. rewrite length_app. lia. Qed.

Lemma len_nonneg (a : bytes) : 0 <= len a.
Proof. unfold len. lia. Qed.


Lemma len_to_bytes (s : string) : len (to_bytes s) = slen s.
Proof.
  unfold len, slen, to_bytes, String.list_byte_of_string.
  rewrite length_map. f_equal.
  induction s as [|c s IH]; simpl; [done | by rewrite IH].
Qed.

Lemma to_string_to_bytes (s : string) : to_string (to_bytes s) = s.
Proof. apply String.string_of_list_byte_of_string. Qed.

Lemma to_bytes_to_string (b : bytes) : to_bytes (to_string b) = b.
Proof. apply String.list_byte_of_string_of_list_byte. Qed.

Lemma byteZ_range (b : byte) : 0 <= byteZ b < 256.
Proof.
  unfold byteZ. pose proof (Byte.to_N_bounded b) as H.
  lia.
Qed.

Lemma byteZ_byte_of_Z (x : Z) : byteZ (byte_of_Z x) = x mod 256.
Proof.
  unfold byteZ, byte_of_Z.
  assert (Hr : 0 <= x mod 256 < 256) by (apply Z.mod_pos_bound; lia).
  destruct (Byte.of_N (Z.to_N (x mod 256))) as [b|] eqn:E.
  - apply Byte.to_of_N in E. rewrite E. lia.
  - apply Byte.of_N_None_iff in E. lia.
Qed.

Lemma byte_of_Z_byteZ (b : byte) : byte_of_Z (byteZ b) = b.
Proof.
  unfold byte_of_Z. pose proof (byteZ_range b) as H.
  rewrite Z.mod_small by lia. unfold byteZ.
  rewrite N2Z.id. by rewrite Byte.of_to_N.
Qed.

Lemma len_PutUint32 (v : Z) : len (BigEndian_PutUint32 v) = 4.
Proof. reflexivity. Qed.

Lemma testbit_above (a k n : Z) :
  0 <= a < 2 ^ k -> 0 <= k <= n -> Z.testbit a n = false.
Proof.
  intros Ha Hk. destruct (Z.eq_dec a 0) as [->|Hne]; [apply Z.bits_0|].
  apply Z.bits_above_log2; [lia|].
  apply Z.log2_lt_pow2; [lia|].
  eapply Z.lt_le_trans; [apply Ha|]. apply Z.pow_le_mono_r; lia.
Qed.

(** Reading back the four bytes of a 32-bit value gives the value. *)
Lemma Uint32_PutUint32 (v : Z) (rest : bytes) :
  0 <= v < 2 ^ 32 ->
  BigEndian_Uint32 (BigEndian_PutUint32 v ++ rest) = Some v.
Proof.
  intros Hv. unfold BigEndian_Uint32, BigEndian_PutUint32. cbn [app].
  rewrite !byteZ_byte_of_Z. f_equal.
  change 256 with (2 ^ 8).
  apply Z.bits_inj'. intros n Hn.
  rewrite !Z.lor_spec, !Z.shiftl_spec by lia.
  rewrite !Z.testbit_mod_pow2 by lia.
  assert (Hsh : forall k, 0 <= k ->
            Z.testbit (Z.shiftr v k) (n - k) = (k <=? n) && Z.testbit v n).
  { intros k Hk. destruct (Z.leb_spec k n).
    - rewrite Z.shiftr_spec by lia. by replace (n - k + k) with n by lia.
    - by rewrite Z.testbit_neg_r by lia. }
  rewrite !Hsh by lia.
  destruct (Z.testbit v n) eqn:Hb.
  - assert (n < 32).
    { destruct (Z.lt_ge_cases n 32) as [|Hge]; [done|].
      rewrite (testbit_above v 32 n) in Hb; [done | lia | lia]. }
    rewrite !andb_true_r.
    destruct (Z.ltb_spec n 8), (Z.ltb_spec (n - 8) 8),
      (Z.ltb_spec (n - 16) 8), (Z.ltb_spec (n - 24) 8),
      (Z.leb_spec 8 n), (Z.leb_spec 16 n), (Z.leb_spec 24 n);
      simpl; try done; lia.
  - by rewrite !andb_false_r.
Qed.

(** Four bytes always decode, to a 32-bit value. *)
Lemma Uint32_total (b : bytes) :
  len b = 4 -> exists v, BigEndian_Uint32 b = Some v /\ 0 <= v < 2 ^ 32.
Proof.
  unfold len. intros Hl.
  destruct b as [|b0 [|b1 [|b2 [|b3 [|]]]]]; simpl in Hl; try lia.
  eexists. split; [reflexivity|].
  pose proof (byteZ_range b0). pose proof (byteZ_range b1).
  pose proof (byteZ_range b2). pose proof (byteZ_range b3).
  rewrite !Z.shiftl_mul_pow2 by lia.
  assert (Hlor : forall a c k, 0 <= k -> 0 <= a < 2 ^ k -> 0 <= c ->
            Z.lor a (c * 2 ^ k) = a + c * 2 ^ k).
  { intros a c k Hk Ha Hc. symmetry.
    rewrite Z.add_nocarry_lxor, Z.lxor_lor; try reflexivity;
    (apply Z.bits_inj'; intros n Hn; rewrite Z.land_spec, Z.bits_0;
     destruct (Z.lt_ge_cases n k);
     [ rewrite Z.mul_pow2_bits_low by lia; apply andb_false_r
     | rewrite (testbit_above a k n); [done | lia | lia] ]). }
  rewrite (Hlor _ (byteZ b2) 8) by lia.
  rewrite (Hlor _ (byteZ b1) 16) by lia.
  rewrite (Hlor _ (byteZ b0) 24) by lia. lia.
Qed.

Lemma slice_Some (data : bytes) (lo hi : Z) :
  0 <= lo -> lo <= hi -> hi <= len data ->
  slice data lo hi = Some (take (Z.to_nat (hi - lo)) (drop (Z.to_nat lo) data)).
Proof.
  intros. unfold slice.
  destruct (Z.leb_spec 0 lo), (Z.leb_spec lo hi), (Z.leb_spec hi (len data));
    simpl; try lia; done.
Qed.

Lemma slice_inv (data : bytes) (lo hi : Z) (b : bytes) :
  slice data lo hi = Some b ->
  0 <= lo /\ lo <= hi /\ hi <= len data /\ len b = hi - lo.
Proof.
  unfold slice.
  destruct (Z.leb_spec 0 lo), (Z.leb_spec lo hi), (Z.leb_spec hi (len data));
    simpl; try done.
  intros [= <-]. repeat split; try done.
  unfold len in *. rewrite length_take, length_drop. lia.
Qed.

(** The segment [y] of [x ++ y ++ z] is the slice at its bounds. *)
Lemma slice_app (x y z : bytes) :
  slice (x ++ y ++ z) (len x) (len x + len y) = Some y.
Proof.
  pose proof (len_nonneg x). pose proof (len_nonneg y). pose proof (len_nonneg z).
  rewrite slice_Some; rewrite ?len_app; try lia.
  f_equal. unfold len. rewrite Nat2Z.id.
  replace (Z.to_nat (_ + _ - _)) with (length y) by lia.
  rewrite drop_app_length. by rewrite take_app_length.
Qed.


(** ** The codec, one read at a time *)

Lemma bind_Ok {A B} (a : A) (f : A -> outcome B) : Ok a ≫= f = f a.
Proof. reflexivity. Qed.

Lemma must_Some {A} (a : A) : must (Some a) = Ok a.
Proof. reflexivity. Qed.

Lemma read_at_inv data off n e b :
  read_at data off n e = Ok b ->
  slice data off (off + n) = Some b /\ 0 <= off /\ 0 <= n /\
  off + n <= len data /\ len b = n.
Proof.
  unfold read_at, fail_if. destruct (Z.ltb_spec (len data) (off + n)); [done|].
  simpl. destruct (slice data off (off + n)) as [b'|] eqn:E; [|done].
  intros [= ->]. apply slice_inv in E as (? & ? & ? & ?).
  repeat split; try done; lia.
Qed.

Lemma read_at_app x y z e :
  read_at (x ++ y ++ z) (len x) (len y) e = Ok y.
Proof.
  unfold read_at, fail_if. rewrite slice_app, !len_app.
  pose proof (len_nonneg z).
  by destruct (Z.ltb_spec (len x + (len y + len z)) (len x + len y)); [lia|].
Qed.



Lemma read_at_no_panic data off n e :
  0 <= off -> 0 <= n -> read_at data off n e <> Panic.
Proof.
  intros. unfold read_at, fail_if.
  destruct (Z.ltb_spec (len data) (off + n)); [done|]. simpl.
  by rewrite slice_Some by lia.
Qed.

(** [readEntry] is four guarded reads. *)
Lemma readEntry_unfold data off :
  readEntry data off =
    b ← read_at data off 4 ErrShortKeyLength;
    keyLen ← must (BigEndian_Uint32 b);
    kb ← read_at data (off + 4) keyLen ErrShortKeyData;
    b' ← read_at data (off + 4 + keyLen) 4 ErrShortValueLength;
    valueLen ← must (BigEndian_Uint32 b');
    vb ← read_at data (off + 4 + keyLen + 4) valueLen ErrShortValueData;
    Ok (to_string kb, to_string vb, off + 4 + keyLen + 4 + valueLen).
Proof.
  unfold readEntry, read_at, fail_if.
  destruct (len data <? off + 4); [done|]. simpl.
  destruct (must (slice data off (off + 4))) as [b| |]; [|done..]. simpl.
  destruct (must (BigEndian_Uint32 b)) as [keyLen| |]; [|done..]. simpl.
  destruct (len data <? off + 4 + keyLen); [done|]. simpl.
  destruct (must (slice data (off + 4) _)) as [kb| |]; [|done..]. simpl.
  destruct (len data <? off + 4 + keyLen + 4); [done|]. simpl.
  destruct (must (slice data (off + 4 + keyLen) _)) as [b'| |]; [|done..]. simpl.
  destruct (must (BigEndian_Uint32 b')) as [valueLen| |]; [|done..]. simpl.
  destruct (len data <? off + 4 + keyLen + 4 + valueLen); [done|]. simpl.
  by destruct (must (slice data (off + 4 + keyLen + 4) _)).
Qed.

Lemma read_at_segment data x y z off n e :
  data = x ++ y ++ z -> off = len x -> n = len y ->
  read_at data off n e = Ok y.
Proof. intros -> -> ->. apply read_at_app. Qed.

Lemma readEntry_inv data off k v off' :
  readEntry data off = Ok (k, v, off') ->
  exists b keyLen kb b' valueLen vb,
    read_at data off 4 ErrShortKeyLength = Ok b /\
    BigEndian_Uint32 b = Some keyLen /\
    read_at data (off + 4) keyLen ErrShortKeyData = Ok kb /\
    read_at data (off + 4 + keyLen) 4 ErrShortValueLength = Ok b' /\
    BigEndian_Uint32 b' = Some valueLen /\
    read_at data (off + 4 + keyLen + 4) valueLen ErrShortValueData = Ok vb /\
    k = to_string kb /\ v = to_string vb /\
    off' = off + 4 + keyLen + 4 + valueLen.
Proof.
  rewrite readEntry_unfold.
  destruct (read_at data off 4 _) as [b| |] eqn:E1; [|done..]. simpl.
  destruct (BigEndian_Uint32 b) as [keyLen|] eqn:E2; [|done]. simpl.
  destruct (read_at data (off + 4) _ _) as [kb| |] eqn:E3; [|done..]. simpl.
  destruct (read_at data (off + 4 + keyLen) _ _) as [b'| |] eqn:E4; [|done..]. simpl.
  destruct (BigEndian_Uint32 b') as [valueLen|] eqn:E5; [|done]. simpl.
  destruct (read_at data (off + 4 + keyLen + 4) _ _) as [vb| |] eqn:E6; [|done..].
  simpl. intros [= <- <- <-]. by exists b, keyLen, kb, b', valueLen, vb.
Qed.

(** An entry read successfully lies inside the data, after [offset]. *)
Lemma readEntry_bounds data off k v off' :
  readEntry data off = Ok (k, v, off') -> 0 <= off /\ off + 8 <= off' <= len data.
Proof.
  intros (b & keyLen & kb & b' & valueLen & vb & H1 & _ & H3 & H4 & _ & H6 & _ & _ & ->)%readEntry_inv.
  apply read_at_inv in H1 as (_ & ? & _ & _ & _).
  apply read_at_inv in H3 as (_ & _ & ? & _ & _).
  apply read_at_inv in H6 as (_ & _ & ? & ? & _). lia.
Qed.



(** No read of [readEntry] is out of range. *)
Lemma readEntry_no_panic data off : 0 <= off -> readEntry data off <> Panic.
Proof.
  intros Hoff. rewrite readEntry_unfold.
  destruct (read_at data off 4 _) as [b| |] eqn:E1; [|done|];
    [|by apply read_at_no_panic in E1; [|lia..]].
  simpl. pose proof E1 as (_ & _ & _ & _ & Hb)%read_at_inv.
  destruct (Uint32_total b Hb) as (keyLen & -> & Hk). simpl.
  destruct (read_at data (off + 4) _ _) as [kb| |] eqn:E3; [|done|];
    [|by apply read_at_no_panic in E3; [|lia..]].
  simpl.
  destruct (read_at data (off + 4 + keyLen) _ _) as [b'| |] eqn:E4; [|done|];
    [|by apply read_at_no_panic in E4; [|lia..]].
  simpl. pose proof E4 as (_ & _ & _ & _ & Hb')%read_at_inv.
  destruct (Uint32_total b' Hb') as (valueLen & -> & Hv). simpl.
  destruct (read_at data (off + 4 + keyLen + 4) _ _) as [vb| |] eqn:E6; [done..|].
  by apply read_at_no_panic in E6; [|lia..].
Qed.

Lemma slen_nonneg s : 0 <= slen s.
Proof. unfold slen. lia. Qed.

Lemma len_encodeEntry kv :
  len (encodeEntry kv) = 4 + slen kv.1 + 4 + slen kv.2.
Proof.
  unfold encodeEntry. rewrite !len_app, !len_PutUint32, !len_to_bytes. lia.
Qed.

(** An entry written by [writeSecretsFile] is read back by [readEntry]. *)
Lemma readEntry_encode x kv z :
  representable kv ->
  readEntry (x ++ encodeEntry kv ++ z) (len x) =
    Ok (kv.1, kv.2, len x + len (encodeEntry kv)).
Proof.
  intros [Hk Hv]. pose proof (slen_nonneg kv.1). pose proof (slen_nonneg kv.2).
  assert (Uk : uint32 (slen kv.1) = slen kv.1) by (apply Z.mod_small; lia).
  assert (Uv : uint32 (slen kv.2) = slen kv.2) by (apply Z.mod_small; lia).
  rewrite readEntry_unfold, len_encodeEntry. unfold encodeEntry.
  rewrite Uk, Uv.
  assert (U1 : BigEndian_Uint32 (BigEndian_PutUint32 (slen kv.1)) = Some (slen kv.1)).
  { rewrite <- (app_nil_r (BigEndian_PutUint32 _)). apply Uint32_PutUint32. lia. }
  assert (U2 : BigEndian_Uint32 (BigEndian_PutUint32 (slen kv.2)) = Some (slen kv.2)).
  { rewrite <- (app_nil_r (BigEndian_PutUint32 _)). apply Uint32_PutUint32. lia. }
  pose proof (len_PutUint32 (slen kv.1)) as L1.
  pose proof (len_PutUint32 (slen kv.2)) as L2.
  revert U1 U2 L1 L2.
  generalize (BigEndian_PutUint32 (slen kv.1)) as P1.
  generalize (BigEndian_PutUint32 (slen kv.2)) as P2.
  intros P2 P1 U1 U2 L1 L2.
  rewrite (read_at_segment _ x P1 (to_bytes kv.1 ++ P2 ++ to_bytes kv.2 ++ z) (len x));
    [| by rewrite <- !app_assoc | done | done].
  rewrite bind_Ok, U1, must_Some, bind_Ok.
  rewrite (read_at_segment _ (x ++ P1) (to_bytes kv.1) (P2 ++ to_bytes kv.2 ++ z)
             (len x + 4));
    [| by rewrite <- !app_assoc | rewrite len_app; lia | by rewrite len_to_bytes].
  rewrite bind_Ok.
  rewrite (read_at_segment _ (x ++ P1 ++ to_bytes kv.1) P2 (to_bytes kv.2 ++ z)
             (len x + 4 + slen kv.1));
    [| by rewrite <- !app_assoc
     | rewrite !len_app, len_to_bytes; lia
     | done].
  rewrite bind_Ok, U2, must_Some, bind_Ok.
  rewrite (read_at_segment _ (x ++ P1 ++ to_bytes kv.1 ++ P2) (to_bytes kv.2) z
             (len x + 4 + slen kv.1 + 4));
    [| by rewrite <- !app_assoc
     | rewrite !len_app, len_to_bytes; lia
     | by rewrite len_to_bytes].
  rewrite bind_Ok, !to_string_to_bytes. do 2 f_equal. lia.
Qed.

(** ** The codec, the loop and the header *)


Lemma readEntries_encode l : forall x z db,
  Forall representable l ->
  readEntries (x ++ flat_map encodeEntry l ++ z) (length l) (len x) db =
    (insert_all l db, Ok tt).
Proof.
  induction l as [|kv l IH]; intros x z db Hl; [done|].
  apply Forall_cons in Hl as [Hkv Hl]. cbn [flat_map length readEntries].
  rewrite <- (app_assoc (encodeEntry kv)), readEntry_encode by done.
  destruct kv as [k v]. cbn [fst snd insert_all fold_left].
  rewrite <- len_app, (app_assoc x). by apply IH.
Qed.



Lemma readEntries_no_panic data n : forall off db,
  0 <= off -> (readEntries data n off db).2 <> Panic.
Proof.
  induction n as [|n IH]; intros off db Hoff; [done|]. cbn [readEntries].
  destruct (readEntry data off) as [[[k v] off']| |] eqn:E; [|done|].
  - apply IH. apply readEntry_bounds in E. lia.
  - by apply readEntry_no_panic in E.
Qed.

Lemma slice_segment data x y z lo hi :
  data = x ++ y ++ z -> lo = len x -> hi = lo + len y ->
  slice data lo hi = Some y.
Proof. intros -> -> ->. apply slice_app. Qed.

Lemma readHeader_inv data n :
  readHeader data = Ok n ->
  exists m b b',
    12 <= len data /\
    slice data 0 4 = Some m /\ String.eqb (to_string m) MagicHeader = true /\
    slice data 4 8 = Some b /\ BigEndian_Uint32 b = Some Version /\
    slice data 8 12 = Some b' /\ BigEndian_Uint32 b' = Some n.
Proof.
  unfold readHeader, fail_if. change (8 + 4) with 12.
  destruct (Z.ltb_spec (len data) 8); [done|]. rewrite bind_Ok.
  destruct (slice data 0 4) as [m|] eqn:Hm; [|done]. rewrite must_Some, bind_Ok.
  destruct (String.eqb (to_string m) MagicHeader) eqn:Em; [|done].
  cbn [negb]. rewrite bind_Ok.
  destruct (slice data 4 8) as [b|] eqn:Hb; [|done]. rewrite must_Some, bind_Ok.
  destruct (BigEndian_Uint32 b) as [version|] eqn:Ev; [|done]. rewrite must_Some, bind_Ok.
  destruct (Z.eqb_spec version Version) as [->|]; [|done]. cbn [negb]. rewrite bind_Ok.
  destruct (Z.ltb_spec (len data) 12); [done|]. rewrite bind_Ok.
  destruct (slice data 8 12) as [b'|] eqn:Hb'; [|done]. rewrite must_Some, bind_Ok.
  destruct (BigEndian_Uint32 b') as [n'|] eqn:En; [|done]. rewrite must_Some.
  intros [= ->]. by exists m, b, b'.
Qed.

Lemma readHeader_intro data n m b b' :
  12 <= len data ->
  slice data 0 4 = Some m -> String.eqb (to_string m) MagicHeader = true ->
  slice data 4 8 = Some b -> BigEndian_Uint32 b = Some Version ->
  slice data 8 12 = Some b' -> BigEndian_Uint32 b' = Some n ->
  readHeader data = Ok n.
Proof.
  intros Hl Hm Em Hb Ev Hb' En.
  unfold readHeader, fail_if. change (8 + 4) with 12.
  destruct (Z.ltb_spec (len data) 8); [lia|]. rewrite bind_Ok.
  rewrite Hm, must_Some, bind_Ok, Em. cbn [negb]. rewrite bind_Ok.
  rewrite Hb, must_Some, bind_Ok, Ev, must_Some, bind_Ok.
  rewrite Z.eqb_refl. cbn [negb]. rewrite bind_Ok.
  destruct (Z.ltb_spec (len data) 12); [lia|]. rewrite bind_Ok.
  by rewrite Hb', must_Some, bind_Ok, En.
Qed.



(** The header written by [writeSecretsFile] is accepted, with its count. *)
Lemma readHeader_encode n rest :
  0 <= n < 2 ^ 32 ->
  readHeader (to_bytes MagicHeader ++ BigEndian_PutUint32 Version ++
              BigEndian_PutUint32 n ++ rest) = Ok n.
Proof.
  intros Hn. pose proof (len_nonneg rest).
  apply (readHeader_intro _ n (to_bytes MagicHeader)
           (BigEndian_PutUint32 Version) (BigEndian_PutUint32 n)).
  - rewrite !len_app, !len_PutUint32. change (len (to_bytes MagicHeader)) with 4. lia.
  - by apply (slice_segment _ []
               (to_bytes MagicHeader) (BigEndian_PutUint32 Version ++ BigEndian_PutUint32 n ++ rest)).
  - done.
  - by apply (slice_segment _ (to_bytes MagicHeader)
               (BigEndian_PutUint32 Version) (BigEndian_PutUint32 n ++ rest)).
  - done.
  - apply (slice_segment _ (to_bytes MagicHeader ++ BigEndian_PutUint32 Version)
               (BigEndian_PutUint32 n) rest); [by rewrite <- app_assoc | done | done].
  - rewrite <- (app_nil_r (BigEndian_PutUint32 n)). by apply Uint32_PutUint32.
Qed.

Lemma readHeader_no_panic data : readHeader data <> Panic.
Proof.
  unfold readHeader, fail_if. change (8 + 4) with 12.
  destruct (Z.ltb_spec (len data) 8); [done|]. rewrite bind_Ok.
  rewrite (slice_Some data 0 4) by lia. rewrite must_Some, bind_Ok.
  destruct (negb _); [done|]. rewrite bind_Ok.
  destruct (slice data 4 8) as [b|] eqn:Eb; [|by rewrite slice_Some in Eb by lia].
  rewrite must_Some, bind_Ok.
  destruct (Uint32_total b) as (v & -> & _).
  { apply slice_inv in Eb. lia. }
  rewrite must_Some, bind_Ok. destruct (negb _); [done|]. rewrite bind_Ok.
  destruct (Z.ltb_spec (len data) 12); [done|]. rewrite bind_Ok.
  destruct (slice data 8 12) as [b'|] eqn:Eb'; [|by rewrite slice_Some in Eb' by lia].
  rewrite must_Some, bind_Ok.
  destruct (Uint32_total b') as (v' & -> & _); [|done].
  apply slice_inv in Eb'. lia.
Qed.

(** ** The codec as a whole *)

Lemma decode_header_ok db0 data n :
  readHeader data = Ok n -> decode db0 data = readEntries data (Z.to_nat n) 12 ∅.
Proof. unfold decode. by intros ->. Qed.

(** What [encode] writes decodes to the entries inserted in order, whatever
    follows them. *)
Lemma decode_encode_app db0 l extra :
  Forall representable l -> Z.of_nat (length l) < 2 ^ 32 ->
  decode db0 (encode (length l) l ++ extra) = (insert_all l ∅, Ok tt).
Proof.
  intros Hl Hn. unfold encode.
  assert (Un : uint32 (Z.of_nat (length l)) = Z.of_nat (length l))
    by (apply Z.mod_small; lia).
  rewrite Un, <- !app_assoc.
  rewrite (decode_header_ok _ _ (Z.of_nat (length l))) by (apply readHeader_encode; lia).
  rewrite Nat2Z.id.
  set (n := Z.of_nat (length l)).
  set (h := to_bytes MagicHeader ++ BigEndian_PutUint32 Version ++
            BigEndian_PutUint32 n).
  replace 12 with (len h) by reflexivity.
  rewrite <- (readEntries_encode l h extra ∅ Hl). unfold h.
  by rewrite <- !app_assoc.
Qed.

(** Inserting entries with distinct keys builds the map that holds them. *)
Lemma insert_all_NoDup l : forall db,
  NoDup l.*1 -> insert_all l db = list_to_map l ∪ db.
Proof.
  induction l as [|[k v] l IH]; intros db Hnd.
  { simpl. by rewrite (left_id_L ∅ (∪)). }
  apply NoDup_cons in Hnd as [Hk Hnd]. cbn [insert_all fold_left fst snd].
  change (fold_left _ l ?d) with (insert_all l d).
  rewrite IH by done. cbn [list_to_map foldr]. simpl.
  rewrite <- insert_union_l. symmetry. apply insert_union_r.
  by apply not_elem_of_list_to_map_1.
Qed.

Lemma insert_all_range ord (c : table) :
  permutes ord -> insert_all (ord (map_to_list c)) ∅ = c.
Proof.
  intros Hord. rewrite insert_all_NoDup.
  - rewrite (right_id_L ∅ (∪)).
    rewrite <- (list_to_map_to_list c) at 2. apply list_to_map_proper; [|done].
    rewrite (Hord _). apply NoDup_fst_map_to_list.
  - rewrite (Hord _). apply NoDup_fst_map_to_list.
Qed.

Lemma range_representable ord (c : table) :
  permutes ord -> representable_db c ->
  Forall representable (ord (map_to_list c)) /\ length (ord (map_to_list c)) = size c.
Proof.
  intros Hord [Hn Hc]. split.
  - rewrite (Hord _). apply map_Forall_to_list in Hc.
    eapply Forall_impl; [exact Hc|]. by intros [k v].
  - rewrite (Hord _). apply length_map_to_list.
Qed.

Lemma slen_to_string (b : bytes) : slen (to_string b) = len b.
Proof. by rewrite <- len_to_bytes, to_bytes_to_string. Qed.

Lemma slen_huge_value : slen huge_value = 2 ^ 32.
Proof.
  unfold huge_value. rewrite slen_to_string. unfold len.
  rewrite repeat_length. apply Z2Nat.id. by apply Z.pow_nonneg.
Qed.

(** A value whose length is a multiple of 2^32 is written with length 0, and
    read back empty. *)
Lemma decode_encode_wrapped db0 (v : string) :
  slen v = 2 ^ 32 ->
  decode db0 (encode 1 [("", v)]) = ({[ "" := "" ]}, Ok tt).
Proof.
  intros Hv.
  assert (E : encode 1 [("", v)] = encode (length [("", "")]) [("", "")] ++ to_bytes v).
  { unfold encode, encodeEntry. cbn [flat_map fst snd length].
    rewrite Hv. change (uint32 (2 ^ 32)) with (uint32 (slen "")).
    by rewrite <- !app_assoc, !app_nil_r. }
  rewrite E, decode_encode_app; [done| |done].
  apply Forall_singleton. by split.
Qed.

(** The decoder never reads out of range, whatever its input. *)
Lemma decode_never_panics db0 data : (decode db0 data).2 <> Panic.
Proof.
  unfold decode. destruct (readHeader data) as [n| |] eqn:E; [|done|].
  - by apply readEntries_no_panic.
  - by apply readHeader_no_panic in E.
Qed.

(** C6 (as amended): for every container whose entry count and key and value
    lengths fit the 32-bit fields of the layout, including the empty one,
    decoding what [writeSecretsFile] encodes succeeds and yields exactly
    the container, in whatever order the entries were written. *)
Theorem decode_encode_roundtrip ord (c db0 : table) :
  permutes ord -> representable_db c ->
  decode db0 (encode (size c) (ord (map_to_list c))) = (c, Ok tt).
Proof.
  intros Hord Hc. destruct (range_representable ord c Hord Hc) as [Hl Hlen].
  rewrite <- Hlen, <- (app_nil_r (encode _ _)), decode_encode_app; try done.
  - by rewrite insert_all_range.
  - rewrite Hlen. apply Hc.
Qed.

Lemma decode_encode_wrapped_differs (v : string) :
  slen v = 2 ^ 32 ->
  exists c', decode ∅ (encode (size ({[ "" := v ]} : table))
                              (id (map_to_list ({[ "" := v ]} : table)))) = (c', Ok tt) /\
             c' <> {[ "" := v ]}.
Proof.
  intros Hv. exists {[ "" := "" ]}. split.
  - rewrite map_size_singleton, map_to_list_singleton.
    by apply decode_encode_wrapped.
  - intros Heq. apply (f_equal (fun m : table => m !! "")) in Heq.
    rewrite !lookup_singleton_eq in Heq. injection Heq as <-.
    change (slen "") with 0 in Hv. pose proof (Z.pow_pos_nonneg 2 32). lia.
Qed.

(** The structural round trip fails for a container with one value of 2^32
    bytes: its length is written as 0 and the value is read back empty. *)
Lemma decode_encode_huge_value :
  exists c', decode ∅ (encode (size ({[ "" := huge_value ]} : table))
                              (id (map_to_list ({[ "" := huge_value ]} : table))))
             = (c', Ok tt) /\
             c' <> {[ "" := huge_value ]}.
Proof. exact (decode_encode_wrapped_differs huge_value slen_huge_value). Qed.





Lemma slice_0_4 (data : bytes) :
  4 <= len data -> slice data 0 4 = Some (take 4 data).
Proof. intros. by rewrite slice_Some by lia. Qed.

Lemma slice_4_8 (data : bytes) :
  8 <= len data -> slice data 4 8 = Some (take 4 (drop 4 data)).
Proof. intros. by rewrite slice_Some by lia. Qed.

Lemma magic_eqb (m : bytes) :
  String.eqb (to_string m) MagicHeader = true <-> m = to_bytes MagicHeader.
Proof.
  rewrite String.eqb_eq. split.
  - intros <-. by rewrite to_bytes_to_string.
  - intros ->. by rewrite to_string_to_bytes.
Qed.

(** C8 (as amended): on an input of at least 8 bytes, the decoder fails with
    the invalid-format error when the first 4 bytes are not "SCFG", and, when
    they are, fails with the unsupported-version error when the big-endian
    version field at offset 4 is not 1.  In both cases [c.DB] is untouched. *)
Theorem decode_header_errors db0 (data : bytes) :
  8 <= len data ->
  (take 4 data <> to_bytes MagicHeader ->
   decode db0 data = (db0, Err ErrInvalidFormat)) /\
  (take 4 data = to_bytes MagicHeader ->
   exists version, BigEndian_Uint32 (take 4 (drop 4 data)) = Some version /\
     (version <> Version ->
      decode db0 data = (db0, Err (ErrUnsupportedVersion version)))).
Proof.
  intros Hlen. unfold decode, readHeader, fail_if.
  destruct (Z.ltb_spec (len data) 8); [lia|]. rewrite bind_Ok.
  rewrite slice_0_4, must_Some, bind_Ok by lia. split.
  - intros Hm. destruct (String.eqb _ _) eqn:E; [by apply magic_eqb in E|done].
  - intros Hm. apply magic_eqb in Hm as Hm'. rewrite Hm'. cbn [negb].
    rewrite bind_Ok, slice_4_8, must_Some, bind_Ok by lia.
    destruct (Uint32_total (take 4 (drop 4 data))) as (v & Hv & _).
    { unfold len in *. rewrite length_take, length_drop. lia. }
    exists v. split; [done|]. intros Hne. rewrite Hv, must_Some, bind_Ok.
    by destruct (Z.eqb_spec v Version).
Qed.

(** An input of four bytes that are not "SCFG" is rejected as too short, not
    as an invalid format: the length check comes first. *)
Lemma decode_short_bad_magic :
  take 4 (to_bytes "XXXX") <> to_bytes MagicHeader /\
  decode ∅ (to_bytes "XXXX") = (∅, Err ErrFileTooShort) /\
  ErrFileTooShort <> ErrInvalidFormat.
Proof. by repeat split. Qed.

(** ** Base64 *)

Lemma b64_index_char (n : Z) : 0 <= n < 64 -> b64_index (b64_char n) = Some n.
Proof.
  intros Hn. rewrite <- (Z2Nat.id n) by lia.
  assert (Hk : (Z.to_nat n < 64)%nat) by lia.
  generalize dependent (Z.to_nat n). clear n Hn. intros k Hk.
  do 64 (destruct k as [|k]; [reflexivity|]). lia.
Qed.

Lemma b64_char_not_newline (n : Z) : is_newline (b64_char n) = false.
Proof.
  destruct (Z.le_gt_cases 0 n) as [Hn|Hn].
  - rewrite <- (Z2Nat.id n) by lia. generalize (Z.to_nat n). intros k.
    unfold b64_char. rewrite Nat2Z.id.
    do 64 (destruct k as [|k]; [reflexivity|]). by destruct k.
  - unfold b64_char. by replace (Z.to_nat n) with 0%nat by lia.
Qed.

Lemma byte_of_Z_eq (x : Z) (b : byte) : x mod 256 = byteZ b -> byte_of_Z x = b.
Proof.
  intros H. rewrite <- (byte_of_Z_byteZ b). unfold byte_of_Z.
  rewrite H. by rewrite (Z.mod_small (byteZ b)) by apply byteZ_range.
Qed.

Lemma b64_decode_full c0 c1 c2 c3 rest s0 s1 s2 s3 :
  b64_index c0 = Some s0 -> b64_index c1 = Some s1 ->
  b64_index c2 = Some s2 -> b64_index c3 = Some s3 ->
  b64_decode (c0 :: c1 :: c2 :: c3 :: rest) =
    let val := s0 * 262144 + s1 * 4096 + s2 * 64 + s3 in
    match b64_decode rest with
    | Some out => Some (byte_of_Z (val / 65536) :: byte_of_Z (val / 256)
                          :: byte_of_Z val :: out)
    | None => None
    end.
Proof. intros H0 H1 H2 H3. cbn [b64_decode]. by rewrite H0, H1, H2, H3. Qed.

Lemma b64_decode_pad1 c0 c1 c2 s0 s1 s2 :
  b64_index c0 = Some s0 -> b64_index c1 = Some s1 -> b64_index c2 = Some s2 ->
  b64_decode [c0; c1; c2; "="%byte] =
    let val := s0 * 262144 + s1 * 4096 + s2 * 64 in
    Some [byte_of_Z (val / 65536); byte_of_Z (val / 256)].
Proof. intros H0 H1 H2. cbn [b64_decode]. by rewrite H0, H1, H2. Qed.

Lemma b64_decode_pad2 c0 c1 s0 s1 :
  b64_index c0 = Some s0 -> b64_index c1 = Some s1 ->
  b64_decode [c0; c1; "="%byte; "="%byte] =
    let val := s0 * 262144 + s1 * 4096 in
    Some [byte_of_Z (val / 65536)].
Proof. intros H0 H1. cbn [b64_decode]. by rewrite H0, H1. Qed.

Lemma b64_digit_index val i :
  b64_index (b64_digit val i) = Some (val / 64 ^ (3 - i) mod 64).
Proof. apply b64_index_char, Z.mod_pos_bound. lia. Qed.

Lemma b64_group_range a b c : 0 <= b64_group a b c < 16777216.
Proof.
  unfold b64_group.
  pose proof (byteZ_range a). pose proof (byteZ_range b). pose proof (byteZ_range c).
  lia.
Qed.

(** Decoding undoes encoding, group by group. *)
Lemma b64_decode_encode (src : bytes) : b64_decode (b64_encode src) = Some src.
Proof.
  remember (length src) as n eqn:Hn.
  revert src Hn. induction n as [n IH] using lt_wf_ind. intros src Hn.
  destruct src as [|a [|b [|c rest]]].
  - done.
  - cbn [b64_encode]. rewrite (b64_decode_pad2 _ _ _ _ (b64_digit_index _ 0) (b64_digit_index _ 1)).
    cbn zeta. do 2 f_equal. apply byte_of_Z_eq.
    change (64 ^ (3 - 0)) with 262144. change (64 ^ (3 - 1)) with 4096.
    unfold b64_group. change (byteZ "000") with 0.
    pose proof (byteZ_range a). Z.div_mod_to_equations. lia.
  - cbn [b64_encode].
    rewrite (b64_decode_pad1 _ _ _ _ _ _ (b64_digit_index _ 0) (b64_digit_index _ 1)
               (b64_digit_index _ 2)).
    change (64 ^ (3 - 0)) with 262144. change (64 ^ (3 - 1)) with 4096.
    change (64 ^ (3 - 2)) with 64.
    unfold b64_group. change (byteZ "000") with 0.
    pose proof (byteZ_range a). pose proof (byteZ_range b).
    cbn zeta. f_equal. f_equal; [|f_equal]; apply byte_of_Z_eq; Z.div_mod_to_equations; lia.
  - cbn [b64_encode app].
    rewrite (b64_decode_full _ _ _ _ _ _ _ _ _ (b64_digit_index _ 0) (b64_digit_index _ 1)
               (b64_digit_index _ 2) (b64_digit_index _ 3)).
    rewrite (IH (length rest)); [| simpl in Hn; lia | done].
    change (64 ^ (3 - 0)) with 262144. change (64 ^ (3 - 1)) with 4096.
    change (64 ^ (3 - 2)) with 64. change (64 ^ (3 - 3)) with 1.
    unfold b64_group.
    pose proof (byteZ_range a). pose proof (byteZ_range b). pose proof (byteZ_range c).
    cbn zeta. f_equal. f_equal; [|f_equal; [|f_equal]]; apply byte_of_Z_eq; Z.div_mod_to_equations; lia.
Qed.

Lemma b64_encode_no_newline (src : bytes) :
  Forall (fun c => is_newline c = false) (b64_encode src).
Proof.
  remember (length src) as n eqn:Hn.
  revert src Hn. induction n as [n IH] using lt_wf_ind. intros src Hn.
  destruct src as [|a [|b [|c rest]]]; cbn [b64_encode app].
  - constructor.
  - repeat constructor; apply b64_char_not_newline.
  - repeat constructor; apply b64_char_not_newline.
  - repeat (constructor; [apply b64_char_not_newline|]).
    apply (IH (length rest)); [simpl in Hn; lia | done].
Qed.

Lemma filter_keeps_all {A} (f : A -> bool) (l : list A) :
  Forall (fun x => f x = true) l -> List.filter f l = l.
Proof.
  induction 1 as [|x l Hx _ IH]; [done|]. simpl. by rewrite Hx, IH.
Qed.

(** [DecodeString] undoes [EncodeToString]. *)
Lemma DecodeString_EncodeToString (src : bytes) :
  DecodeString (EncodeToString src) = Some src.
Proof.
  unfold DecodeString, EncodeToString. rewrite to_bytes_to_string.
  rewrite filter_keeps_all; [apply b64_decode_encode|].
  eapply Forall_impl; [apply b64_encode_no_newline|].
  intros c Hc. simpl. by rewrite Hc.
Qed.

(** What [EncodeToString] returns is never the reserved map key "k". *)
Lemma EncodeToString_not_k (src : bytes) : EncodeToString src <> "k".
Proof.
  intros H. apply (f_equal DecodeString) in H.
  rewrite DecodeString_EncodeToString in H. done.
Qed.

(** ** The envelope *)

(** The reference cipher meets the contract of the interface. *)
Global Instance refGCM_lawful (key : bytes) : LawfulAEAD (refGCM key).
Proof.
  split.
  - done.
  - intros dst nonce plaintext ad. by cbn [Seal refGCM ref_seal app].
  - intros nonce plaintext ad _. cbn [Seal Open refGCM]. unfold ref_open, ref_seal.
    cbn [app].
    set (f := fun b => byte_of_Z (byteZ b + ref_mask key nonce)).
    set (g := fun b => byte_of_Z (byteZ b - ref_mask key nonce)).
    assert (Hgf : forall l, map g (map f l) = l).
    { intros l. rewrite map_map. rewrite <- (map_id l) at 2.
      apply map_ext. intros b. unfold f, g. apply byte_of_Z_eq.
      rewrite byteZ_byte_of_Z. pose proof (byteZ_range b).
      Z.div_mod_to_equations. lia. }
    assert (Hlen : length (map f plaintext ++ ref_tag key nonce plaintext ad)
                   = (length plaintext + 16)%nat).
    { rewrite length_app, length_map. unfold ref_tag. by rewrite repeat_length. }
    unfold len. rewrite Hlen.
    destruct (Z.ltb_spec (Z.of_nat (length plaintext + 16)) 16); [lia|].
    replace (length plaintext + 16 - 16)%nat with (length (map f plaintext))
      by (rewrite length_map; lia).
    rewrite take_app_length, drop_app_length, Hgf.
    by rewrite bool_decide_eq_true_2.
Qed.

Lemma ReadFull_Some w n nonce w' :
  0 <= n -> ReadFull w n = (Some nonce, w') ->
  nonce = take (Z.to_nat n) (entropy w) /\ len nonce = n /\
  entropy w' = drop (Z.to_nat n) (entropy w) /\ files w' = files w /\
  mkdir_fails w' = mkdir_fails w /\ write_fails w' = write_fails w.
Proof.
  intros Hn. unfold ReadFull.
  destruct (Z.ltb_spec (len (entropy w)) n); [done|].
  intros [= <- <-]. repeat split; try done.
  unfold len in *. rewrite length_take. lia.
Qed.

Lemma ReadFull_enough w n :
  n <= len (entropy w) -> exists w', ReadFull w n = (Some (take (Z.to_nat n) (entropy w)), w').
Proof.
  intros Hn. unfold ReadFull.
  destruct (Z.ltb_spec (len (entropy w)) n); [lia|]. by eexists.
Qed.

(** What [Encrypt] returns when it succeeds: the nonce it drew, followed by
    the sealed text. *)
Lemma Encrypt_Ok c G value w sealed w' :
  GCM c = Some G -> LawfulAEAD G ->
  Encrypt c value w = (Ok sealed, w') ->
  let nonce := take (Z.to_nat (NonceSize G)) (entropy w) in
  len nonce = NonceSize G /\
  sealed = nonce ++ Seal G [] nonce (to_bytes value) [] /\
  entropy w' = drop (Z.to_nat (NonceSize G)) (entropy w).
Proof.
  intros HG HL. unfold Encrypt. rewrite HG.
  destruct (ReadFull w (NonceSize G)) as [[nonce|] w1] eqn:E; [|done].
  intros [= <- <-].
  apply ReadFull_Some in E as (-> & Hl & He & _); [|apply nonce_size_nonneg].
  cbn zeta. by rewrite seal_appends.
Qed.

(** [Decrypt] opens what [Seal] made under the nonce in front of it. *)
Lemma Decrypt_sealed c G nonce plaintext :
  GCM c = Some G -> LawfulAEAD G -> len nonce = NonceSize G ->
  Decrypt c (nonce ++ Seal G [] nonce plaintext []) = Ok (to_string plaintext).
Proof.
  intros HG HL Hn. unfold Decrypt, fail_if. rewrite HG, must_Some, bind_Ok.
  cbn zeta. pose proof (len_nonneg (Seal G [] nonce plaintext [])).
  rewrite len_app.
  destruct (Z.ltb_spec (len nonce + len (Seal G [] nonce plaintext [])) (NonceSize G));
    [lia|].
  rewrite bind_Ok.
  rewrite (slice_segment _ [] nonce (Seal G [] nonce plaintext []) 0 (NonceSize G));
    [| done | done | lia].
  rewrite must_Some, bind_Ok.
  rewrite (slice_segment _ nonce (Seal G [] nonce plaintext []) [] (NonceSize G)
             (len nonce + len (Seal G [] nonce plaintext [])));
    [| by rewrite app_nil_r | done | lia].
  rewrite must_Some, bind_Ok. by rewrite open_seal.
Qed.

(** With a cipher in place, [Decrypt] never panics. *)
Lemma Decrypt_no_panic c G data :
  GCM c = Some G -> LawfulAEAD G -> Decrypt c data <> Panic.
Proof.
  intros HG HL. unfold Decrypt, fail_if. rewrite HG, must_Some, bind_Ok.
  cbn zeta. pose proof (nonce_size_nonneg (G := G)).
  destruct (Z.ltb_spec (len data) (NonceSize G)); [done|].
  rewrite bind_Ok, !slice_Some by lia. rewrite !must_Some, !bind_Ok.
  by destruct (Open G _ _ _ _).
Qed.

(** C4: for every plaintext, whenever the random source can supply a nonce,
    [Encrypt] succeeds and [Decrypt] of what it returns, under the same
    cipher, is the plaintext. *)
Theorem Decrypt_Encrypt (c : Config) (G : AEAD) (p : string) (w : World) :
  GCM c = Some G -> LawfulAEAD G -> NonceSize G <= len (entropy w) ->
  exists sealed w', Encrypt c p w = (Ok sealed, w') /\ Decrypt c sealed = Ok p.
Proof.
  intros HG HL Hent.
  destruct (ReadFull_enough w _ Hent) as [w' Hr].
  exists (Seal G (take (Z.to_nat (NonceSize G)) (entropy w))
            (take (Z.to_nat (NonceSize G)) (entropy w)) (to_bytes p) []), w'.
  assert (HE : Encrypt c p w =
    (Ok (Seal G (take (Z.to_nat (NonceSize G)) (entropy w))
            (take (Z.to_nat (NonceSize G)) (entropy w)) (to_bytes p) []), w')).
  { unfold Encrypt. by rewrite HG, Hr. }
  split; [done|].
  destruct (Encrypt_Ok _ _ _ _ _ _ HG HL HE) as (Hn & -> & _).
  rewrite (Decrypt_sealed c G) by done. by rewrite to_string_to_bytes.
Qed.

(** C5: two calls of [Encrypt] on the same plaintext under the same cipher
    each put the nonce they drew in front of the sealed text, so whenever the
    two nonces drawn from the random source differ, the outputs differ. *)
Theorem Encrypt_twice_differs (c : Config) (G : AEAD) (p : string)
    (w w1 w2 : World) (s1 s2 : bytes) :
  GCM c = Some G -> LawfulAEAD G ->
  Encrypt c p w = (Ok s1, w1) -> Encrypt c p w1 = (Ok s2, w2) ->
  let n1 := take (Z.to_nat (NonceSize G)) (entropy w) in
  let n2 := take (Z.to_nat (NonceSize G)) (entropy w1) in
  n1 <> n2 ->
  s1 = n1 ++ Seal G [] n1 (to_bytes p) [] /\
  s2 = n2 ++ Seal G [] n2 (to_bytes p) [] /\
  entropy w1 = drop (Z.to_nat (NonceSize G)) (entropy w) /\
  s1 <> s2.
Proof.
  intros HG HL H1 H2 n1 n2 Hne.
  destruct (Encrypt_Ok _ _ _ _ _ _ HG HL H1) as (Hl1 & -> & He).
  destruct (Encrypt_Ok _ _ _ _ _ _ HG HL H2) as (Hl2 & -> & _).
  repeat split; try done.
  intros Heq. apply app_inj_1 in Heq as [Heq _]; [done|].
  subst n1 n2. unfold len in *. lia.
Qed.

(** ** The record table *)

Lemma permutes_id : permutes id.
Proof. by intros l. Qed.

Lemma permutes_reverse : permutes reverse.
Proof. intros l. apply reverse_Permutation. Qed.

Lemma Decrypt_set_DB c db data : Decrypt (set_DB c db) data = Decrypt c data.
Proof. reflexivity. Qed.

Lemma opens_to_set_DB c db k key : opens_to (set_DB c db) k key = opens_to c k key.
Proof. reflexivity. Qed.

Lemma opens_to_true c k key :
  opens_to c k key = true <->
  k <> "k" /\ exists keyBytes, DecodeString k = Some keyBytes /\ Decrypt c keyBytes = Ok key.
Proof.
  unfold opens_to. rewrite andb_true_iff, negb_true_iff, String.eqb_neq.
  split.
  - intros [Hk H]. split; [done|].
    destruct (DecodeString k) as [kb|]; [|done]. exists kb. split; [done|].
    destruct (Decrypt c kb) as [d| |]; [|done..].
    by apply String.eqb_eq in H as ->.
  - intros [Hk (kb & -> & ->)]. split; [done|]. apply String.eqb_refl.
Qed.

(** An entry whose key does not open to [key] is passed over by each loop. *)
Lemma Retrieve_range_skip c G key k v rest :
  GCM c = Some G -> LawfulAEAD G -> opens_to c k key = false ->
  Retrieve_range c key ((k, v) :: rest) = Retrieve_range c key rest.
Proof.
  intros HG HL. unfold opens_to. cbn [Retrieve_range].
  destruct (String.eqb k "k"); [done|]. cbn [negb andb].
  destruct (DecodeString k) as [kb|]; [|done].
  pose proof (Decrypt_no_panic c G kb HG HL).
  destruct (Decrypt c kb) as [d| |]; [|done..]. by intros ->.
Qed.

(** An entry whose key opens to [key] ends the loop of [Retrieve], unless its
    value is not valid base64. *)
Lemma Retrieve_range_hit c key k v rest :
  opens_to c k key = true ->
  Retrieve_range c key ((k, v) :: rest) =
    match DecodeString v with
    | Some valueBytes => Decrypt c valueBytes
    | None => Retrieve_range c key rest
    end.
Proof.
  intros (Hk & kb & Hkb & Hd)%opens_to_true. cbn [Retrieve_range].
  apply String.eqb_neq in Hk. by rewrite Hk, Hkb, Hd, String.eqb_refl.
Qed.

Lemma Retrieve_range_none c G key l :
  GCM c = Some G -> LawfulAEAD G ->
  (forall k v, (k, v) ∈ l -> opens_to c k key = false) ->
  Retrieve_range c key l = Err (ErrKeyNotFound key).
Proof.
  intros HG HL. induction l as [|[k v] l IH]; intros Hl; [done|].
  rewrite (Retrieve_range_skip c G) by (done || (apply (Hl k v); left)).
  apply IH. intros k' v' H. apply (Hl k' v'). by right.
Qed.

(** When exactly one entry of the scan opens to [key], the scan ends at it,
    in whatever position it is. *)
Lemma Retrieve_range_found c G key l K V :
  GCM c = Some G -> LawfulAEAD G -> NoDup l.*1 -> (K, V) ∈ l ->
  opens_to c K key = true ->
  (forall k v, (k, v) ∈ l -> k <> K -> opens_to c k key = false) ->
  Retrieve_range c key l =
    match DecodeString V with
    | Some valueBytes => Decrypt c valueBytes
    | None => Err (ErrKeyNotFound key)
    end.
Proof.
  intros HG HL. induction l as [|[k v] l IH]; intros Hnd Hin HK Hl.
  { by apply elem_of_nil in Hin. }
  cbn [fmap list_fmap fst] in Hnd. apply NoDup_cons in Hnd as [Hk Hnd].
  apply elem_of_cons in Hin as [[= <- <-]|Hin].
  - rewrite Retrieve_range_hit by done.
    destruct (DecodeString V); [done|].
    apply (Retrieve_range_none c G); try done.
    intros k' v' H. apply (Hl k' v'); [by right|].
    intros ->. apply Hk. apply list_elem_of_fmap. by exists (K, v').
  - assert (k <> K).
    { intros ->. apply Hk. apply list_elem_of_fmap. by exists (K, V). }
    rewrite (Retrieve_range_skip c G) by (done || (apply (Hl k v); [left|done])).
    apply IH; try done. intros k' v' H'. apply (Hl k' v'). by right.
Qed.

Lemma key_fails_to_open_opens_to c k key :
  key_fails_to_open c k = true -> opens_to c k key = false.
Proof.
  unfold key_fails_to_open, opens_to. rewrite andb_false_iff. intros H. right.
  destruct (DecodeString k) as [kb|]; [|done]. by destruct (Decrypt c kb).
Qed.

(** The entries a [range] over [c.DB] visits, in any order. *)
Lemma range_entries ord (db : table) :
  permutes ord ->
  NoDup (ord (map_to_list db)).*1 /\
  (forall k v, (k, v) ∈ ord (map_to_list db) <-> db !! k = Some v).
Proof.
  intros Hord. split.
  - rewrite (Hord _). apply NoDup_fst_map_to_list.
  - intros k v. rewrite (Hord _). apply elem_of_map_to_list.
Qed.

Lemma openers_spec c key k :
  k ∈ openers c key <-> (exists v, DB c !! k = Some v) /\ opens_to c k key = true.
Proof.
  unfold openers. rewrite list_elem_of_In, filter_In, <- list_elem_of_In.
  rewrite list_elem_of_fmap. split.
  - intros [([k' v] & -> & H%elem_of_map_to_list) Ho]. split; [by exists v|done].
  - intros [[v H] Ho]. split; [|done]. exists (k, v). split; [done|].
    by apply elem_of_map_to_list.
Qed.

Lemma openers_nil c key :
  openers c key = [] -> forall k v, DB c !! k = Some v -> opens_to c k key = false.
Proof.
  intros Hn k v Hkv. destruct (opens_to c k key) eqn:E; [|done].
  assert (H : k ∈ openers c key) by (apply openers_spec; eauto).
  rewrite Hn in H. by apply elem_of_nil in H.
Qed.

Lemma openers_single c key K :
  openers c key = [K] ->
  (exists V, DB c !! K = Some V) /\ opens_to c K key = true /\
  (forall k v, DB c !! k = Some v -> k <> K -> opens_to c k key = false).
Proof.
  intros Hs.
  assert (HK : K ∈ openers c key) by (rewrite Hs; left).
  apply openers_spec in HK as [HV HK]. repeat split; try done.
  intros k v Hkv Hne. destruct (opens_to c k key) eqn:E; [|done].
  assert (H : k ∈ openers c key) by (apply openers_spec; eauto).
  rewrite Hs in H. by apply list_elem_of_singleton in H.
Qed.

(** What a successful [Store] did. *)
Lemma Store_Ok ord c key value w c' w' :
  Store ord c key value w = (Ok tt, c', w') ->
  exists encKeyBytes encValueBytes w1 w2,
    Encrypt c key w = (Ok encKeyBytes, w1) /\
    Encrypt c value w1 = (Ok encValueBytes, w2) /\
    c' = set_DB c (<[EncodeToString encKeyBytes := EncodeToString encValueBytes]> (DB c)).
Proof.
  unfold Store.
  destruct (Encrypt c key w) as [[ekb| |] w1] eqn:E1; [|done..].
  destruct (Encrypt c value w1) as [[evb| |] w2] eqn:E2; [|done..].
  destruct (writeSecretsFile _ _ _) as [r w3]. intros [= -> <- <-].
  by exists ekb, evb, w1, w2.
Qed.

(** What [Encrypt] returns opens to what was encrypted. *)
Lemma Decrypt_of_Encrypt c G value w sealed w' :
  GCM c = Some G -> LawfulAEAD G ->
  Encrypt c value w = (Ok sealed, w') -> Decrypt c sealed = Ok value.
Proof.
  intros HG HL HE. destruct (Encrypt_Ok _ _ _ _ _ _ HG HL HE) as (Hn & -> & _).
  rewrite (Decrypt_sealed c G) by done. by rewrite to_string_to_bytes.
Qed.


Lemma Decrypt_Err c data e :
  Decrypt c data = Err e -> e = ErrCiphertextTooShort \/ e = ErrDecrypt.
Proof.
  unfold Decrypt, fail_if. destruct (GCM c) as [G|]; [|done].
  rewrite must_Some, bind_Ok. cbn zeta.
  destruct (len data <? NonceSize G); [intros [= <-]; by left|].
  rewrite bind_Ok.
  destruct (slice data 0 _) as [nonce|]; [|done]. rewrite must_Some, bind_Ok.
  destruct (slice data _ _) as [ct|]; [|done]. rewrite must_Some, bind_Ok.
  destruct (Open G _ _ _ _); [done|]. intros [= <-]. by right.
Qed.

Lemma Retrieve_range_skip_all c G key skipped rest :
  GCM c = Some G -> LawfulAEAD G ->
  Forall (fun kv => opens_to c kv.1 key = false) skipped ->
  Retrieve_range c key (skipped ++ rest) = Retrieve_range c key rest.
Proof.
  intros HG HL. induction 1 as [|[k v] l Hkv _ IH]; [done|].
  cbn [app]. by rewrite (Retrieve_range_skip c G).
Qed.

(** C2 (as amended): the scan of [Retrieve] passes over every entry whose key
    cannot be opened and goes on; at the first entry whose key opens to the
    requested key, if the stored value is valid base64 the scan ends with the
    result of [Decrypt] on it, so a value that [Decrypt] rejects gives that
    error (ciphertext too short, or failed to decrypt) to the caller; if the
    stored value is not valid base64 the entry is passed over as well. *)
Theorem Retrieve_skips_and_propagates (c : Config) (G : AEAD) (key : string)
    (skipped : list (string * string)) (k v : string) (rest : list (string * string)) :
  GCM c = Some G -> LawfulAEAD G ->
  Forall (fun kv => key_fails_to_open c kv.1 = true) skipped ->
  opens_to c k key = true ->
  match DecodeString v with
  | Some valueBytes =>
      Retrieve_range c key (skipped ++ (k, v) :: rest) = Decrypt c valueBytes /\
      (forall e, Decrypt c valueBytes = Err e ->
         Retrieve_range c key (skipped ++ (k, v) :: rest) = Err e /\
         (e = ErrCiphertextTooShort \/ e = ErrDecrypt))
  | None =>
      Retrieve_range c key (skipped ++ (k, v) :: rest) = Retrieve_range c key rest
  end.
Proof.
  intros HG HL Hs Hk.
  assert (Hskip : Forall (fun kv => opens_to c kv.1 key = false) skipped).
  { eapply Forall_impl; [exact Hs|]. intros kv. apply key_fails_to_open_opens_to. }
  rewrite (Retrieve_range_skip_all c G) by done.
  rewrite Retrieve_range_hit by done.
  destruct (DecodeString v) as [vb|]; [|done]. split; [done|].
  intros e He. split; [done|]. by apply (Decrypt_Err c vb).
Qed.

Lemma opened_key_opens_to c k key :
  opened_key c k = Some key <-> opens_to c k key = true.
Proof.
  rewrite opens_to_true. unfold opened_key.
  destruct (String.eqb_spec k "k") as [->|Hk].
  - split; [done|]. by intros [? _].
  - split.
    + destruct (DecodeString k) as [kb|]; [|done].
      destruct (Decrypt c kb) as [d| |] eqn:E; [|done..].
      intros [= ->]. split; [done|]. by exists kb.
    + by intros [_ (kb & -> & ->)].
Qed.

(** [ListKeys] reports, in the order of the scan, the keys that open. *)
Lemma ListKeys_range_spec c G l : forall keys,
  GCM c = Some G -> LawfulAEAD G ->
  ListKeys_range c l keys = Ok (keys ++ omap (fun kv => opened_key c kv.1) l).
Proof.
  induction l as [|[k v] l IH]; intros keys HG HL.
  { simpl. by rewrite app_nil_r. }
  cbn [ListKeys_range omap list_omap fst]. unfold opened_key at 1.
  destruct (String.eqb k "k"); [by apply IH|].
  destruct (DecodeString k) as [kb|]; [|by apply IH].
  pose proof (Decrypt_no_panic c G kb HG HL).
  destruct (Decrypt c kb) as [d| |]; [|by apply IH|done].
  rewrite IH by done. by rewrite <- app_assoc.
Qed.

Lemma Delete_range_skip c G key k v rest :
  GCM c = Some G -> LawfulAEAD G -> opens_to c k key = false ->
  Delete_range c key ((k, v) :: rest) = Delete_range c key rest.
Proof.
  intros HG HL. unfold opens_to. cbn [Delete_range].
  destruct (String.eqb k "k"); [done|]. cbn [negb andb].
  destruct (DecodeString k) as [kb|]; [|done].
  pose proof (Decrypt_no_panic c G kb HG HL).
  destruct (Decrypt c kb) as [d| |]; [|done..]. by intros ->.
Qed.

Lemma Delete_range_hit c key k v rest :
  opens_to c k key = true -> Delete_range c key ((k, v) :: rest) = Ok (Some k).
Proof.
  intros (Hk & kb & Hkb & Hd)%opens_to_true. cbn [Delete_range].
  apply String.eqb_neq in Hk. by rewrite Hk, Hkb, Hd, String.eqb_refl.
Qed.

Lemma Delete_range_none c G key l :
  GCM c = Some G -> LawfulAEAD G ->
  (forall k v, (k, v) ∈ l -> opens_to c k key = false) ->
  Delete_range c key l = Ok None.
Proof.
  intros HG HL. induction l as [|[k v] l IH]; intros Hl; [done|].
  rewrite (Delete_range_skip c G) by (done || (apply (Hl k v); left)).
  apply IH. intros k' v' H. apply (Hl k' v'). by right.
Qed.

Lemma Delete_range_found c G key l K V :
  GCM c = Some G -> LawfulAEAD G -> (K, V) ∈ l ->
  opens_to c K key = true ->
  (forall k v, (k, v) ∈ l -> k <> K -> opens_to c k key = false) ->
  Delete_range c key l = Ok (Some K).
Proof.
  intros HG HL. induction l as [|[k v] l IH]; intros Hin HK Hl.
  { by apply elem_of_nil in Hin. }
  destruct (decide (k = K)) as [->|Hne].
  - by apply Delete_range_hit.
  - rewrite (Delete_range_skip c G) by (done || (apply (Hl k v); [left|done])).
    apply IH; try done.
    + apply elem_of_cons in Hin as [[= ? ?]|Hin]; [done|done].
    + intros k' v' H'. apply (Hl k' v'). by right.
Qed.

Lemma writeSecretsFile_Ok ord c w :
  mkdir_fails w = false -> write_fails w = false ->
  (writeSecretsFile ord c w).1 = Ok tt.
Proof. intros H1 H2. unfold writeSecretsFile. by rewrite H1, H2. Qed.

(** C9 (as amended): in a store where exactly one entry's key opens to [key],
    [Delete key] removes that entry, and then [Retrieve key] fails with
    key-not-found and [ListKeys] does not report [key]; and in a store where
    no entry's key opens to [key], [Delete key] fails with key-not-found and
    changes nothing.  ([Delete] removes one entry per call, whichever its scan
    meets first.) *)
Theorem Delete_removes_key ord ord' ord1 ord2 (c : Config) (G : AEAD)
    (key : string) (w : World) :
  GCM c = Some G -> LawfulAEAD G ->
  permutes ord -> permutes ord1 -> permutes ord2 ->
  (forall K, openers c key = [K] ->
     let c' := set_DB c (delete K (DB c)) in
     exists r w', Delete ord ord' c key w = (r, c', w') /\
       (mkdir_fails w = false -> write_fails w = false -> r = Ok tt) /\
       Retrieve ord1 c' key = Err (ErrKeyNotFound key) /\
       exists keys, ListKeys ord2 c' = Ok keys /\ key ∉ keys) /\
  (openers c key = [] ->
     Delete ord ord' c key w = (Err (ErrKeyNotFound key), c, w)).
Proof.
  intros HG HL Hord Hord1 Hord2. split.
  - intros K ([V HV] & HK & Hothers)%openers_single c'.
    destruct (range_entries ord (DB c) Hord) as [_ Hin].
    assert (Hafter : forall o, permutes o -> forall k v,
              (k, v) ∈ o (map_to_list (DB c')) -> opens_to c' k key = false).
    { intros o Ho k v Hkv. apply (range_entries o _ Ho) in Hkv.
      unfold c' in Hkv. cbn [DB set_DB] in Hkv.
      apply lookup_delete_Some in Hkv as [Hne Hkv].
      unfold c'. rewrite opens_to_set_DB. by apply (Hothers k v). }
    exists (writeSecretsFile ord' c' w).1, (writeSecretsFile ord' c' w).2.
    repeat split.
    + unfold Delete.
      rewrite (Delete_range_found c G key _ K V); try done.
      * fold c'. by destruct (writeSecretsFile ord' c' w).
      * by apply Hin.
      * intros k v Hkv Hne. apply Hin in Hkv. by apply (Hothers k v).
    + apply writeSecretsFile_Ok.
    + unfold Retrieve. apply (Retrieve_range_none c' G); try done.
      by apply Hafter.
    + exists (omap (fun kv => opened_key c' kv.1) (ord2 (map_to_list (DB c')))).
      split.
      * unfold ListKeys. by rewrite (ListKeys_range_spec c' G).
      * intros Hel. apply list_elem_of_omap in Hel as ([k v] & Hkv & Ho).
        apply opened_key_opens_to in Ho. cbn [fst] in Ho.
        by rewrite (Hafter ord2 Hord2 k v Hkv) in Ho.
  - intros Hnone. unfold Delete.
    rewrite (Delete_range_none c G); try done.
    intros k v Hkv. apply (range_entries ord _ Hord) in Hkv.
    by apply (openers_nil c key Hnone k v).
Qed.

(** ** The store at work *)

(** C3: the container that [NewConfigWithFile] writes when it creates the
    store holds the reserved record in clear: the map key "k" and, as its
    value, the 64 hex digits of the master key, from which [Sscanf] reads the
    key back without any secret. *)
Theorem NewConfigWithFile_key_in_clear :
  (NewConfigWithFile id refGCM "config" demo_world).1 = Ok demo_config /\
  files demo_world1 !! "config" =
    Some (to_bytes "SCFG" ++ [x00; x00; x00; x01] ++ [x00; x00; x00; x01] ++
          [x00; x00; x00; x01] ++ to_bytes "k" ++
          [x00; x00; x00; x40] ++
          to_bytes "000102030405060708090a0b0c0d0e0f101112131415161718191a1b1c1d1e1f") /\
  Sscanf_x "000102030405060708090a0b0c0d0e0f101112131415161718191a1b1c1d1e1f"
    = Some (Key demo_config).
Proof. split; [reflexivity|]. split; vm_compute; reflexivity. Qed.


(** An entry whose key opens to "a" and whose stored value is not base64 is
    passed over: [Retrieve] reports that the key was not found, in either
    order of the scan, and no decryption error reaches the caller. *)
Lemma Retrieve_skips_bad_value :
  opens_to demo_bad_value demo_sealed_key "a" = true /\
  DB demo_bad_value !! demo_sealed_key = Some "not base64!" /\
  DecodeString "not base64!" = None /\
  Retrieve id demo_bad_value "a" = Err (ErrKeyNotFound "a") /\
  Retrieve reverse demo_bad_value "a" = Err (ErrKeyNotFound "a").
Proof. repeat split; vm_compute; reflexivity. Qed.

(** After two [Store]s of "a", one [Delete("a")] succeeds and leaves the other
    entry: [Retrieve("a")] still returns a value and [ListKeys] still reports
    "a". *)
Lemma Delete_leaves_duplicate :
  let d := Delete id id demo_stored2.1.2 "a" demo_stored2.2 in
  d.1.1 = Ok tt /\
  Retrieve id d.1.2 "a" = Ok "old" /\ Retrieve reverse d.1.2 "a" = Ok "old" /\
  ListKeys id d.1.2 = Ok ["a"].
Proof. repeat split; vm_compute; reflexivity. Qed.

(** ** The theorems at concrete inputs *)


Lemma Retrieve_skips_and_propagates_witness :
  Retrieve_range demo_config "a"
    ([("k", "00"); ("%%%", "x"); ("AAAAAAAAAAAAAAAAAAAAAAAAAAAAAAAAAAAAAAAA", "y")]
     ++ (demo_sealed_key, "LC0uLzAxMjM0NTY3sa6miIiIiIiIiIiIiIiIiIiIiQ==") :: [])
  = Err ErrDecrypt.
Proof.
  pose proof (Retrieve_skips_and_propagates demo_config (refGCM demo_key) "a"
    [("k", "00"); ("%%%", "x"); ("AAAAAAAAAAAAAAAAAAAAAAAAAAAAAAAAAAAAAAAA", "y")]
    demo_sealed_key "LC0uLzAxMjM0NTY3sa6miIiIiIiIiIiIiIiIiIiIiQ==" []
    eq_refl (refGCM_lawful demo_key)) as H.
  destruct (DecodeString "LC0uLzAxMjM0NTY3sa6miIiIiIiIiIiIiIiIiIiIiQ==")
    as [valueBytes|] eqn:E.
  - apply H.
    + repeat constructor.
    + vm_compute. reflexivity.
    + vm_compute in E. injection E as <-. vm_compute. reflexivity.
  - vm_compute in E. discriminate E.
Defined.

Lemma Decrypt_Encrypt_witness :
  exists sealed w',
    Encrypt demo_config "secret123" demo_world1 = (Ok sealed, w') /\
    Decrypt demo_config sealed = Ok "secret123".
Proof.
  apply (Decrypt_Encrypt demo_config (refGCM demo_key) "secret123" demo_world1).
  - reflexivity.
  - apply refGCM_lawful.
  - vm_compute. discriminate.
Defined.

Lemma Encrypt_twice_differs_witness :
  let e1 := Encrypt demo_config "secret123" demo_world1 in
  let e2 := Encrypt demo_config "secret123" e1.2 in
  exists s1 s2, e1 = (Ok s1, e1.2) /\ e2 = (Ok s2, e2.2) /\ s1 <> s2.
Proof.
  intros e1 e2. eexists _, _.
  split; [vm_compute; reflexivity|]. split; [vm_compute; reflexivity|].
  eapply (Encrypt_twice_differs demo_config (refGCM demo_key) "secret123"
            demo_world1 e1.2 e2.2).
  - reflexivity.
  - apply refGCM_lawful.
  - vm_compute. reflexivity.
  - vm_compute. reflexivity.
  - vm_compute. discriminate.
Defined.

Example decode_encode_empty : decode ∅ (encode (size (∅ : table)) (id (map_to_list ∅))) = (∅, Ok tt).
Proof. reflexivity. Qed.

Lemma demo_table_representable : representable_db (DB demo_stored2.1.2).
Proof.
  split; [vm_compute; reflexivity|].
  apply map_Forall_to_list.
  let l := eval vm_compute in (map_to_list (DB demo_stored2.1.2)) in
  change (map_to_list (DB demo_stored2.1.2)) with l.
  repeat constructor.
Qed.

Lemma decode_encode_roundtrip_witness :
  decode ∅ (encode (size (DB demo_stored2.1.2))
              (reverse (map_to_list (DB demo_stored2.1.2))))
  = (DB demo_stored2.1.2, Ok tt).
Proof.
  apply (decode_encode_roundtrip reverse (DB demo_stored2.1.2) ∅).
  - apply permutes_reverse.
  - apply demo_table_representable.
Defined.


Lemma decode_header_errors_witness :
  decode ∅ (to_bytes "SCFX" ++ [x00; x00; x00; x01]) = (∅, Err ErrInvalidFormat) /\
  decode ∅ (to_bytes "SCFG" ++ [x00; x00; x00; x02])
    = (∅, Err (ErrUnsupportedVersion 2)).
Proof.
  split.
  - apply (decode_header_errors ∅ (to_bytes "SCFX" ++ [x00; x00; x00; x01])).
    + vm_compute. discriminate.
    + vm_compute. discriminate.
  - destruct (decode_header_errors ∅ (to_bytes "SCFG" ++ [x00; x00; x00; x02]))
      as [_ H]; [vm_compute; discriminate|].
    destruct (H eq_refl) as (version & Hv & Hd).
    vm_compute in Hv. injection Hv as <-. apply Hd. discriminate.
Defined.

Lemma Delete_removes_key_witness :
  let c := demo_stored1.1.2 in
  Retrieve reverse (set_DB c (delete demo_sealed_key (DB c))) "a"
    = Err (ErrKeyNotFound "a") /\
  Delete id id c "b" demo_stored1.2 = (Err (ErrKeyNotFound "b"), c, demo_stored1.2).
Proof.
  intros c. split.
  - destruct (Delete_removes_key id id reverse id c (refGCM demo_key) "a"
                demo_stored1.2 eq_refl (refGCM_lawful demo_key)
                permutes_id permutes_reverse permutes_id) as [H _].
    destruct (H demo_sealed_key) as (r & w' & _ & _ & HR & _); [|exact HR].
    vm_compute. reflexivity.
  - apply (Delete_removes_key id id reverse id c (refGCM demo_key) "b"
             demo_stored1.2 eq_refl (refGCM_lawful demo_key)
             permutes_id permutes_reverse permutes_id).
    vm_compute. reflexivity.
Defined.


(* ================================================================== *)
(** * Further properties of the codec *)


Lemma readEntries_size data n : forall off db db' r,
  readEntries data n off db = (db', r) ->
  (size db' <= size db + n)%nat.
Proof.
  induction n as [|n IH]; intros off db db' r; cbn [readEntries].
  { intros [= <- _]. lia. }
  destruct (readEntry data off) as [[[k v] off']| |].
  - intros H%IH. pose proof (map_size_insert k v db) as Hs.
    destruct (db !! k); unfold id in Hs; lia.
  - intros [= <- _]. lia.
  - intros [= <- _]. lia.
Qed.

(** X2: What a successful [loadDB] has checked: the input has the magic "SCFG",
    version 1 and a 4-byte entry count, and the table read has at most that
    many entries (fewer when a key occurs more than once). *)
Theorem decode_Ok_header (db0 m : table) (data : bytes) :
  decode db0 data = (m, Ok tt) ->
  12 <= len data /\
  take 4 data = to_bytes MagicHeader /\
  BigEndian_Uint32 (take 4 (drop 4 data)) = Some Version /\
  exists numEntries,
    BigEndian_Uint32 (take 4 (drop 8 data)) = Some numEntries /\
    Z.of_nat (size m) <= numEntries.
Proof.
  unfold decode. destruct (readHeader data) as [n| |] eqn:E; [|done..].
  intros Hr. apply readHeader_inv in E as (mg & b & b' & Hl & Hm & Em & Hb & Ev & Hb' & En).
  rewrite slice_0_4 in Hm by lia. rewrite slice_4_8 in Hb by lia.
  rewrite slice_Some in Hb' by lia.
  injection Hm as <-. injection Hb as <-. injection Hb' as <-.
  apply magic_eqb in Em. repeat split; try done.
  exists n. split; [done|].
  apply readEntries_size in Hr. rewrite map_size_empty in Hr.
  destruct (Uint32_total (take (Z.to_nat (12 - 8)) (drop (Z.to_nat 8) data)))
    as (v & Hv & Hv0).
  { unfold len in *. rewrite length_take, length_drop. lia. }
  rewrite Hv in En. injection En as ->. lia.
Qed.

Lemma readEntries_exhausted l : forall x db m,
  Forall representable l ->
  readEntries (x ++ flat_map encodeEntry l) (length l + S m) (len x) db =
    (insert_all l db, Err ErrShortKeyLength).
Proof.
  induction l as [|kv l IH]; intros x db m Hl.
  - cbn [flat_map length Nat.add readEntries insert_all fold_left].
    rewrite app_nil_r. unfold readEntry, fail_if.
    by destruct (Z.ltb_spec (len x) (len x + 4)); [|lia].
  - apply Forall_cons in Hl as [Hkv Hl].
    cbn [flat_map length Nat.add readEntries].
    rewrite readEntry_encode by done.
    destruct kv as [k v]. cbn [fst snd insert_all fold_left].
    rewrite <- len_app, (app_assoc x). by apply IH.
Qed.

Lemma decode_Ok_header_witness :
  let data := encode 2 [("a", "1"); ("a", "2")] in
  12 <= len data /\
  take 4 data = to_bytes MagicHeader /\
  BigEndian_Uint32 (take 4 (drop 4 data)) = Some Version /\
  exists numEntries,
    BigEndian_Uint32 (take 4 (drop 8 data)) = Some numEntries /\
    Z.of_nat (size (<["a" := "2"]> (∅ : table))) <= numEntries.
Proof.
  apply (decode_Ok_header ∅ (<["a" := "2"]> ∅) (encode 2 [("a", "1"); ("a", "2")])).
  vm_compute. reflexivity.
Defined.

(** X3: A header that declares more entries than the input holds: [loadDB] reads
    the entries that are there, fails with "file too short for key length",
    and leaves in [c.DB] the entries it has read, not the table it had. *)
Theorem decode_count_exceeds_entries (db0 : table) (l : list (string * string)) (n : nat) :
  Forall representable l -> (length l < n)%nat -> Z.of_nat n < 2 ^ 32 ->
  decode db0 (encode n l) = (insert_all l ∅, Err ErrShortKeyLength).
Proof.
  intros Hl Hlt Hn. unfold encode.
  assert (Un : uint32 (Z.of_nat n) = Z.of_nat n) by (apply Z.mod_small; lia).
  rewrite Un.
  rewrite (decode_header_ok _ _ (Z.of_nat n)) by (apply readHeader_encode; lia).
  rewrite Nat2Z.id.
  set (h := to_bytes MagicHeader ++ BigEndian_PutUint32 Version ++
            BigEndian_PutUint32 (Z.of_nat n)).
  replace 12 with (len h) by reflexivity.
  pose proof (readEntries_exhausted l h ∅ (n - length l - 1) Hl) as H.
  replace (length l + S (n - length l - 1))%nat with n in H by lia.
  rewrite <- H. unfold h. by rewrite <- !app_assoc.
Qed.

Lemma decode_count_exceeds_entries_witness :
  decode {[ "old" := "table" ]} (encode 3 [("a", "1"); ("b", "2")])
  = (insert_all [("a", "1"); ("b", "2")] ∅, Err ErrShortKeyLength).
Proof.
  apply (decode_count_exceeds_entries _ [("a", "1"); ("b", "2")] 3).
  - repeat constructor.
  - simpl. lia.
  - vm_compute. reflexivity.
Defined.

Lemma insert_all_app l1 l2 db :
  insert_all (l1 ++ l2) db = insert_all l2 (insert_all l1 db).
Proof. unfold insert_all. apply fold_left_app. Qed.

Lemma insert_all_lookup_notin l : forall db k,
  k ∉ l.*1 -> insert_all l db !! k = db !! k.
Proof.
  induction l as [|[k' v'] l IH]; intros db k Hk; [done|].
  cbn [fmap list_fmap fst] in Hk. apply not_elem_of_cons in Hk as [Hne Hk].
  cbn [insert_all fold_left fst snd]. change (fold_left _ l ?d) with (insert_all l d).
  rewrite IH by done. by rewrite lookup_insert_ne.
Qed.

(** X4: When a file holds several entries with the same key, [loadDB] keeps the
    value of the last one. *)
Theorem decode_last_entry_wins (db0 : table) (l1 l2 : list (string * string))
    (k v : string) :
  Forall representable (l1 ++ (k, v) :: l2) ->
  Z.of_nat (length (l1 ++ (k, v) :: l2)) < 2 ^ 32 ->
  k ∉ l2.*1 ->
  exists m, decode db0 (encode (length (l1 ++ (k, v) :: l2)) (l1 ++ (k, v) :: l2))
            = (m, Ok tt) /\ m !! k = Some v.
Proof.
  intros Hl Hn Hk. exists (insert_all (l1 ++ (k, v) :: l2) ∅). split.
  - rewrite <- (app_nil_r (encode _ _)). by apply decode_encode_app.
  - rewrite insert_all_app. cbn [insert_all fold_left fst snd].
    change (fold_left _ l2 ?d) with (insert_all l2 d).
    rewrite insert_all_lookup_notin by done. apply lookup_insert_eq.
Qed.

Lemma decode_last_entry_wins_witness :
  exists m, decode ∅ (encode 3 [("a", "1"); ("a", "2"); ("b", "3")]) = (m, Ok tt) /\
            m !! "a" = Some "2".
Proof.
  apply (decode_last_entry_wins ∅ [("a", "1")] [("b", "3")] "a" "2").
  - repeat constructor.
  - vm_compute. reflexivity.
  - intros H. apply list_elem_of_singleton in H. discriminate H.
Defined.

(* ================================================================== *)
(** * Further properties of the store and its file *)

Lemma findDataFile_id w filename : findDataFile w filename = filename.
Proof. unfold findDataFile. by destruct (files w !! filename). Qed.

Lemma writeSecretsFile_inv ord c w r w' :
  writeSecretsFile ord c w = (r, w') ->
  (r = Ok tt /\ mkdir_fails w = false /\ write_fails w = false /\
   w' = WriteFile w (ConfigFile c) (encode (size (DB c)) (ord (map_to_list (DB c))))) \/
  (w' = w /\ ((r = Err ErrCreateDirectory /\ mkdir_fails w = true) \/
              (r = Err ErrWriteConfig /\ write_fails w = true))).
Proof.
  unfold writeSecretsFile. rewrite findDataFile_id.
  destruct (mkdir_fails w); [intros [= <- <-]; right; split; [done|by left]|].
  destruct (write_fails w); intros [= <- <-].
  - right. split; [done|by right].
  - by left.
Qed.

Lemma loadDB_of_file c w data :
  files w !! ConfigFile c = Some data ->
  loadDB c w = ((decode (DB c) data).2, set_DB c (decode (DB c) data).1).
Proof.
  intros H. unfold loadDB. rewrite findDataFile_id, H.
  by destruct (decode (DB c) data).
Qed.

Lemma decode_written ord (db db0 : table) :
  permutes ord -> representable_db db ->
  decode db0 (encode (size db) (ord (map_to_list db))) = (db, Ok tt).
Proof.
  intros Hord Hdb. destruct (range_representable ord db Hord Hdb) as [Hl Hlen].
  rewrite <- Hlen, <- (app_nil_r (encode _ _)), decode_encode_app; try done.
  - by rewrite insert_all_range.
  - rewrite Hlen. apply Hdb.
Qed.

(** X5: What [writeSecretsFile] has written, [loadDB] reads back: after a
    successful write of a table that fits the format, loading the same file
    into any [Config] succeeds and gives exactly that table, whatever the
    order in which the entries were written and whatever the table was
    before the load. *)
Theorem loadDB_after_writeSecretsFile ord (c c0 : Config) (w w' : World) :
  permutes ord -> representable_db (DB c) ->
  ConfigFile c0 = ConfigFile c ->
  writeSecretsFile ord c w = (Ok tt, w') ->
  loadDB c0 w' = (Ok tt, set_DB c0 (DB c)).
Proof.
  intros Hord Hdb Hf [(_ & _ & _ & ->)|(_ & [[? _]|[? _]])]%writeSecretsFile_inv;
    [|done..].
  rewrite (loadDB_of_file c0 _ (encode (size (DB c)) (ord (map_to_list (DB c))))).
  - by rewrite decode_written.
  - rewrite Hf. cbn [files WriteFile]. apply lookup_insert_eq.
Qed.

Lemma loadDB_after_writeSecretsFile_witness :
  loadDB demo_config (writeSecretsFile reverse demo_stored2.1.2 demo_stored2.2).2
  = (Ok tt, set_DB demo_config (DB demo_stored2.1.2)).
Proof.
  apply (loadDB_after_writeSecretsFile reverse demo_stored2.1.2 demo_config
           demo_stored2.2).
  - apply permutes_reverse.
  - apply demo_table_representable.
  - reflexivity.
  - reflexivity.
Defined.

(** ** The master key and its hex form *)

Lemma hexDigit_hex_char (n : Z) : 0 <= n < 16 -> hexDigit (hex_char n) = Some n.
Proof.
  intros Hn. rewrite <- (Z2Nat.id n) by lia.
  assert (Hk : (Z.to_nat n < 16)%nat) by lia.
  generalize dependent (Z.to_nat n). clear n Hn. intros k Hk.
  do 16 (destruct k as [|k]; [reflexivity|]). lia.
Qed.

Lemma hex_char_not_blank (n : Z) : 0 <= n < 16 -> is_blank (hex_char n) = false.
Proof.
  intros Hn. rewrite <- (Z2Nat.id n) by lia.
  assert (Hk : (Z.to_nat n < 16)%nat) by lia.
  generalize dependent (Z.to_nat n). clear n Hn. intros k Hk.
  do 16 (destruct k as [|k]; [reflexivity|]). lia.
Qed.

Lemma hex_pair_range (c : byte) :
  0 <= byteZ c / 16 < 16 /\ 0 <= byteZ c mod 16 < 16.
Proof. pose proof (byteZ_range c). Z.div_mod_to_equations. lia. Qed.

Lemma hexString_hex (key : bytes) :
  hexString (flat_map (fun c => [hex_char (byteZ c / 16); hex_char (byteZ c mod 16)]) key)
  = Some key.
Proof.
  induction key as [|c key IH]; [done|].
  destruct (hex_pair_range c) as [H1 H2].
  cbn [flat_map app hexString].
  rewrite !hexDigit_hex_char, IH by done. do 2 f_equal.
  apply byte_of_Z_eq. pose proof (byteZ_range c). Z.div_mod_to_equations. lia.
Qed.

(** [Sscanf("%x")] reads back the key that [Sprintf("%x")] wrote. *)
Lemma Sscanf_x_Sprintf_x (key : bytes) :
  key <> [] -> Sscanf_x (Sprintf_x key) = Some key.
Proof.
  intros Hne. unfold Sscanf_x, Sprintf_x. rewrite to_bytes_to_string.
  destruct key as [|c key]; [done|].
  cbn [flat_map app skipSpace].
  rewrite hex_char_not_blank by apply hex_pair_range.
  change (hex_char (byteZ c / 16) :: hex_char (byteZ c mod 16) :: ?t)
    with ([hex_char (byteZ c / 16); hex_char (byteZ c mod 16)] ++ t).
  change ([hex_char (byteZ c / 16); hex_char (byteZ c mod 16)] ++
          flat_map ?f key) with (flat_map f (c :: key)).
  by rewrite hexString_hex.
Qed.

Lemma slen_Sprintf_x (key : bytes) : slen (Sprintf_x key) = 2 * len key.
Proof.
  unfold Sprintf_x. rewrite slen_to_string. unfold len.
  induction key as [|c key IH]; [done|].
  cbn [flat_map app length]. lia.
Qed.

(** ** Opening a store *)

Lemma NewConfigWithFile_unfold ord aesgcm filename w :
  NewConfigWithFile ord aesgcm filename w =
    let c0 := {| ConfigFile := filename; Key := []; GCM := None; DB := ∅ |} in
    match files w !! filename with
    | Some _ => openStore aesgcm c0 w
    | None =>
        match ReadFull w 32 with
        | (None, w1) => (Err ErrGenerateKey, w1)
        | (Some key, w1) =>
            let c := set_DB c0 (<["k" := Sprintf_x key]> (DB c0)) in
            match writeSecretsFile ord c w1 with
            | (Ok _, w2) => openStore aesgcm c w2
            | (Err e, w2) => (Err e, w2)
            | (Panic, w2) => (Panic, w2)
            end
        end
    end.
Proof.
  unfold NewConfigWithFile, openStore. cbn zeta. cbn [ConfigFile].
  rewrite findDataFile_id.
  destruct (files w !! filename); [done|].
  destruct (ReadFull w 32) as [[key|] w1]; [|done].
  by destruct (writeSecretsFile _ _ _) as [[[]| |] w2].
Qed.

Lemma openStore_world aesgcm c w : (openStore aesgcm c w).2 = w.
Proof.
  unfold openStore. destruct (loadDB c w) as [[[]| |] c1]; [|done..].
  destruct (DB c1 !! "k") as [keyStr|]; [|done].
  destruct (Sscanf_x keyStr) as [key|]; [|done]. by case_bool_decide.
Qed.






(** X7: Opening a store whose file exists changes nothing outside the [Config]:
    no file is written and no randomness is drawn, whether the call succeeds
    or fails. *)
Theorem NewConfigWithFile_existing_untouched ord aesgcm (filename : string)
    (w : World) (data : bytes) :
  files w !! filename = Some data ->
  (NewConfigWithFile ord aesgcm filename w).2 = w.
Proof.
  intros Hf. rewrite NewConfigWithFile_unfold. cbn zeta. rewrite Hf.
  apply openStore_world.
Qed.

Lemma NewConfigWithFile_existing_untouched_witness :
  (NewConfigWithFile id refGCM "config" demo_stored2.2).2 = demo_stored2.2.
Proof.
  apply (NewConfigWithFile_existing_untouched id refGCM "config" demo_stored2.2
           (encode (size (DB demo_stored2.1.2)) (id (map_to_list (DB demo_stored2.1.2))))).
  vm_compute. reflexivity.
Defined.

Lemma openStore_written aesgcm c w data db key :
  files w !! ConfigFile c = Some data -> decode (DB c) data = (db, Ok tt) ->
  db !! "k" = Some (Sprintf_x key) -> key <> [] ->
  len key = 16 \/ len key = 24 \/ len key = 32 ->
  openStore aesgcm c w =
    (Ok {| ConfigFile := ConfigFile c; Key := key; GCM := Some (aesgcm key);
           DB := db |}, w).
Proof.
  intros Hf Hd Hk Hne Hl. unfold openStore.
  rewrite (loadDB_of_file c w data Hf), Hd. cbn [fst snd DB set_DB ConfigFile].
  rewrite Hk, Sscanf_x_Sprintf_x by done. by rewrite bool_decide_eq_true_2.
Qed.

Lemma range_singleton ord (k v : string) :
  permutes ord -> ord (map_to_list ({[ k := v ]} : table)) = [(k, v)].
Proof.
  intros Hord. apply Permutation_singleton_r.
  by rewrite (Hord _), map_to_list_singleton.
Qed.

(** X8: First use: where no file exists and the random source can give 32 bytes,
    [NewConfigWithFile] takes them as the master key, writes a container
    whose only record is "k" with the key in hex, and returns the store with
    that key; opening the same path again returns the same store and leaves
    the file and the random source as they are. *)
Theorem NewConfigWithFile_create_then_reopen ord ord' aesgcm (filename : string)
    (w : World) :
  permutes ord -> files w !! filename = None -> 32 <= len (entropy w) ->
  mkdir_fails w = false -> write_fails w = false ->
  let key := take 32 (entropy w) in
  let c := {| ConfigFile := filename; Key := key; GCM := Some (aesgcm key);
              DB := {[ "k" := Sprintf_x key ]} |} in
  exists w1,
    NewConfigWithFile ord aesgcm filename w = (Ok c, w1) /\
    files w1 = <[filename := encode 1 [("k", Sprintf_x key)]]> (files w) /\
    entropy w1 = drop 32 (entropy w) /\
    NewConfigWithFile ord' aesgcm filename w1 = (Ok c, w1).
Proof.
  intros Hord Hf Hent Hmk Hwr key c.
  assert (Hlen : len key = 32).
  { unfold key, len in *. rewrite length_take. lia. }
  assert (Hne : key <> []).
  { intros E. rewrite E in Hlen. done. }
  assert (Hrep : representable_db ({[ "k" := Sprintf_x key ]} : table)).
  { split; [by rewrite map_size_singleton|].
    apply map_Forall_singleton. split; cbn [fst snd].
    - done.
    - rewrite slen_Sprintf_x, Hlen. done. }
  set (data := encode 1 [("k", Sprintf_x key)]).
  assert (Hdec : forall db0, decode db0 data = ({[ "k" := Sprintf_x key ]}, Ok tt)).
  { intros db0. rewrite <- (decode_written id {[ "k" := Sprintf_x key ]} db0 permutes_id Hrep).
    by rewrite map_size_singleton, (range_singleton id _ _ permutes_id). }
  set (w1 := WriteFile {| files := files w; mkdir_fails := false;
                          write_fails := false;
                          entropy := drop (Z.to_nat 32) (entropy w) |} filename data).
  assert (Hopen : openStore aesgcm
            (set_DB {| ConfigFile := filename; Key := []; GCM := None; DB := ∅ |}
                    (<["k" := Sprintf_x key]> ∅)) w1 = (Ok c, w1)).
  { rewrite (openStore_written aesgcm _ w1 data {[ "k" := Sprintf_x key ]} key);
      [ reflexivity | apply lookup_insert_eq | apply Hdec
      | apply lookup_singleton_eq | done | by right; right ]. }
  exists w1. repeat split.
  - rewrite NewConfigWithFile_unfold. cbn zeta. rewrite Hf.
    unfold ReadFull. destruct (Z.ltb_spec (len (entropy w)) 32); [lia|].
    unfold writeSecretsFile. rewrite findDataFile_id.
    cbn [mkdir_fails write_fails ConfigFile set_DB DB]. rewrite Hmk, Hwr.
    rewrite insert_empty, map_size_singleton, (range_singleton ord _ _ Hord).
    fold key. fold data. rewrite <- insert_empty. exact Hopen.
  - rewrite NewConfigWithFile_unfold. cbn zeta.
    replace (files w1 !! filename) with (Some data)
      by (symmetry; apply lookup_insert_eq).
    rewrite (openStore_written aesgcm _ w1 data {[ "k" := Sprintf_x key ]} key);
      [ reflexivity | apply lookup_insert_eq | apply Hdec
      | apply lookup_singleton_eq | done | by right; right ].
Qed.

Lemma NewConfigWithFile_create_then_reopen_witness :
  exists w1,
    NewConfigWithFile id refGCM "config" demo_world = (Ok demo_config, w1) /\
    files w1 = <["config" := encode 1 [("k", Sprintf_x demo_key)]]> ∅ /\
    entropy w1 = drop 32 (entropy demo_world) /\
    NewConfigWithFile reverse refGCM "config" w1 = (Ok demo_config, w1).
Proof.
  apply (NewConfigWithFile_create_then_reopen id reverse refGCM "config" demo_world).
  - apply permutes_id.
  - reflexivity.
  - vm_compute. discriminate.
  - reflexivity.
  - reflexivity.
Defined.



(** ** Reading the table *)

Lemma Retrieve_range_Ok c key l v :
  Retrieve_range c key l = Ok v ->
  exists K V valueBytes, (K, V) ∈ l /\ opens_to c K key = true /\
    DecodeString V = Some valueBytes /\ Decrypt c valueBytes = Ok v.
Proof.
  induction l as [|[k v'] l IH]; [done|]. cbn [Retrieve_range].
  assert (Hrest : Retrieve_range c key l = Ok v ->
    exists K V valueBytes, (K, V) ∈ (k, v') :: l /\ opens_to c K key = true /\
      DecodeString V = Some valueBytes /\ Decrypt c valueBytes = Ok v).
  { intros (K & V & vb & Hin & H)%IH. exists K, V, vb. split; [by right|done]. }
  destruct (String.eqb k "k") eqn:Ek; [done|].
  destruct (DecodeString k) as [kb|] eqn:Ekb; [|done].
  destruct (Decrypt c kb) as [d| |] eqn:Ed; [|done..].
  destruct (String.eqb d key) eqn:Edk; [|done].
  destruct (DecodeString v') as [vb|] eqn:Evb; [|done].
  intros Hv. exists k, v', vb. split; [by left|]. split; [|done].
  apply opens_to_true. apply String.eqb_neq in Ek. apply String.eqb_eq in Edk as ->.
  split; [done|]. by exists kb.
Qed.

(** X10: [Retrieve] returns only what is stored: a value it returns is the
    decryption of the stored value of an entry of the table, other than the
    reserved record, whose key opens to the requested key. *)
Theorem Retrieve_Ok_stored ord (c : Config) (key v : string) :
  permutes ord -> Retrieve ord c key = Ok v ->
  exists K V valueBytes,
    DB c !! K = Some V /\ K <> "k" /\ opens_to c K key = true /\
    DecodeString V = Some valueBytes /\ Decrypt c valueBytes = Ok v.
Proof.
  intros Hord (K & V & vb & Hin & Ho & Hd & Hv)%Retrieve_range_Ok.
  exists K, V, vb. repeat split; try done.
  - by apply (range_entries ord _ Hord).
  - by apply opens_to_true in Ho as [? _].
Qed.

Lemma Retrieve_Ok_stored_witness :
  exists K V valueBytes,
    DB demo_stored1.1.2 !! K = Some V /\ K <> "k" /\
    opens_to demo_stored1.1.2 K "a" = true /\
    DecodeString V = Some valueBytes /\ Decrypt demo_stored1.1.2 valueBytes = Ok "old".
Proof.
  apply (Retrieve_Ok_stored id demo_stored1.1.2 "a" "old").
  - apply permutes_id.
  - vm_compute. reflexivity.
Defined.

Lemma opened_key_None c k :
  k = "k" \/ key_fails_to_open c k = true -> opened_key c k = None.
Proof.
  unfold opened_key, key_fails_to_open. intros [->|H]; [done|].
  destruct (String.eqb k "k"); [done|].
  destruct (DecodeString k) as [kb|]; [|done]. by destruct (Decrypt c kb).
Qed.

(** X11: The reserved record is never given out: in a table that holds only the
    record "k" and entries whose keys cannot be opened, [Retrieve] finds no
    key at all, not even "k", and [ListKeys] lists nothing. *)
Theorem reserved_record_hidden ord ord' (c : Config) (G : AEAD) (key : string) :
  GCM c = Some G -> LawfulAEAD G -> permutes ord -> permutes ord' ->
  (forall k v, DB c !! k = Some v -> k = "k" \/ key_fails_to_open c k = true) ->
  Retrieve ord c key = Err (ErrKeyNotFound key) /\ ListKeys ord' c = Ok [].
Proof.
  intros HG HL Hord Hord' Hall. split.
  - apply (Retrieve_range_none c G); try done.
    intros k v Hkv%(range_entries ord _ Hord).
    destruct (Hall k v Hkv) as [->|H]; [done|].
    by apply key_fails_to_open_opens_to.
  - unfold ListKeys. rewrite (ListKeys_range_spec c G) by done. cbn [app].
    f_equal.
    assert (Hgen : forall l : list (string * string),
              (forall k v, (k, v) ∈ l -> opened_key c k = None) ->
              omap (fun kv => opened_key c kv.1) l = []).
    { induction l as [|[k v] l IH]; intros Hl; [done|].
      cbn [omap list_omap fst]. rewrite (Hl k v) by left.
      apply IH. intros k' v' H. apply (Hl k' v'). by right. }
    apply Hgen. intros k v Hkv%(range_entries ord' _ Hord').
    apply opened_key_None. by apply (Hall k v).
Qed.

Lemma reserved_record_hidden_witness :
  Retrieve id demo_config "k" = Err (ErrKeyNotFound "k") /\
  ListKeys reverse demo_config = Ok [].
Proof.
  apply (reserved_record_hidden id reverse demo_config (refGCM demo_key) "k").
  - reflexivity.
  - apply refGCM_lawful.
  - apply permutes_id.
  - apply permutes_reverse.
  - intros k v Hkv. left.
    change (DB demo_config) with ({[ "k" := Sprintf_x demo_key ]} : table) in Hkv.
    by apply lookup_singleton_Some in Hkv as [<- _].
Defined.

Lemma omap_length_le {A B} (f : A -> option B) (l : list A) :
  (length (omap f l) <= length l)%nat.
Proof.
  induction l as [|x l IH]; [done|]. cbn [omap list_omap].
  destruct (f x); simpl; lia.
Qed.

(** X12: [ListKeys] never fails once the cipher is in place, and a key is listed
    exactly when some entry of the table has a key that opens to it; each
    such entry is listed once, so the list is no longer than the table. *)
Theorem ListKeys_lists_openable ord (c : Config) (G : AEAD) :
  GCM c = Some G -> LawfulAEAD G -> permutes ord ->
  exists keys, ListKeys ord c = Ok keys /\
    (forall x, x ∈ keys <-> exists k v, DB c !! k = Some v /\ opens_to c k x = true) /\
    (length keys <= size (DB c))%nat.
Proof.
  intros HG HL Hord.
  exists (omap (fun kv => opened_key c kv.1) (ord (map_to_list (DB c)))).
  split; [|split].
  - unfold ListKeys. by rewrite (ListKeys_range_spec c G).
  - intros x. rewrite list_elem_of_omap. split.
    + intros ([k v] & Hkv%(range_entries ord _ Hord) & Ho%opened_key_opens_to).
      by exists k, v.
    + intros (k & v & Hkv & Ho). exists (k, v). split.
      * by apply (range_entries ord _ Hord).
      * by apply opened_key_opens_to.
  - rewrite <- (length_map_to_list (DB c)), <- (Permutation_length (Hord _)).
    apply omap_length_le.
Qed.

Lemma ListKeys_lists_openable_witness :
  exists keys, ListKeys reverse demo_stored2.1.2 = Ok keys /\
    (forall x, x ∈ keys <->
       exists k v, DB demo_stored2.1.2 !! k = Some v /\
                   opens_to demo_stored2.1.2 k x = true) /\
    (length keys <= size (DB demo_stored2.1.2))%nat.
Proof.
  apply (ListKeys_lists_openable reverse demo_stored2.1.2 (refGCM demo_key)).
  - reflexivity.
  - apply refGCM_lawful.
  - apply permutes_reverse.
Defined.

(** X13: After a successful [Store], [ListKeys] reports the key, whatever the
    table held before. *)
Theorem ListKeys_after_Store ord ord' (c : Config) (G : AEAD) (key value : string)
    (w : World) (c' : Config) (w' : World) :
  GCM c = Some G -> LawfulAEAD G -> permutes ord' ->
  Store ord c key value w = (Ok tt, c', w') ->
  exists keys, ListKeys ord' c' = Ok keys /\ key ∈ keys.
Proof.
  intros HG HL Hord (ekb & evb & w1 & w2 & E1 & E2 & ->)%Store_Ok.
  pose proof (Decrypt_of_Encrypt _ _ _ _ _ _ HG HL E1) as Dk.
  eexists. split.
  - unfold ListKeys. by rewrite (ListKeys_range_spec _ G).
  - cbn [app DB set_DB]. apply list_elem_of_omap.
    exists (EncodeToString ekb, EncodeToString evb). split.
    + apply (range_entries ord' _ Hord), lookup_insert_eq.
    + cbn [fst]. apply opened_key_opens_to. rewrite opens_to_set_DB.
      apply opens_to_true. split; [apply EncodeToString_not_k|].
      exists ekb. by rewrite DecodeString_EncodeToString.
Qed.

Lemma ListKeys_after_Store_witness :
  exists keys, ListKeys reverse demo_stored2.1.2 = Ok keys /\ "a" ∈ keys.
Proof.
  apply (ListKeys_after_Store id reverse demo_stored1.1.2 (refGCM demo_key)
           "a" "new" demo_stored1.2 demo_stored2.1.2 demo_stored2.2).
  - reflexivity.
  - apply refGCM_lawful.
  - apply permutes_reverse.
  - reflexivity.
Defined.

Lemma opens_to_functional c k key key' :
  opens_to c k key = true -> opens_to c k key' = true -> key = key'.
Proof.
  intros (_ & kb & Hkb & Hd)%opens_to_true (_ & kb' & Hkb' & Hd')%opens_to_true.
  rewrite Hkb in Hkb'. injection Hkb' as <-. rewrite Hd in Hd'. by injection Hd'.
Qed.

(** X14: [Store] does not disturb other keys: a key other than the one stored, held
    by exactly one entry (or by none), is retrieved after the [Store] exactly
    as before it, whatever the orders of the two scans. *)
Theorem Retrieve_other_after_Store ord ord1 ord2 (c : Config) (G : AEAD)
    (key value key' : string) (w : World) (c' : Config) (w' : World) :
  GCM c = Some G -> LawfulAEAD G -> permutes ord1 -> permutes ord2 ->
  key' <> key -> (length (openers c key') <= 1)%nat ->
  Store ord c key value w = (Ok tt, c', w') ->
  Retrieve ord1 c' key' = Retrieve ord2 c key'.
Proof.
  intros HG HL Hord1 Hord2 Hne Hone (ekb & evb & w1 & w2 & E1 & E2 & ->)%Store_Ok.
  pose proof (Decrypt_of_Encrypt _ _ _ _ _ _ HG HL E1) as Dk.
  set (K := EncodeToString ekb). set (V := EncodeToString evb).
  assert (HK : opens_to c K key = true).
  { apply opens_to_true. split; [apply EncodeToString_not_k|].
    exists ekb. by unfold K; rewrite DecodeString_EncodeToString. }
  assert (HK' : opens_to c K key' = false).
  { destruct (opens_to c K key') eqn:E; [|done].
    by destruct Hne; apply (opens_to_functional c K). }
  destruct (range_entries ord1 (<[K := V]> (DB c)) Hord1) as [Hnd1 Hin1].
  destruct (range_entries ord2 (DB c) Hord2) as [Hnd2 Hin2].
  unfold Retrieve. cbn [DB set_DB].
  destruct (openers c key') as [|K' [|]] eqn:Eo; [| |simpl in Hone; lia].
  - pose proof (openers_nil c key' Eo) as Hnone.
    rewrite (Retrieve_range_none (set_DB c _) G key' _ HG HL).
    + rewrite (Retrieve_range_none c G key' _ HG HL); [done|].
      intros k v Hkv%Hin2. by apply (Hnone k v).
    + intros k v Hkv%Hin1. rewrite opens_to_set_DB.
      destruct (decide (k = K)) as [->|Hk]; [done|].
      rewrite lookup_insert_ne in Hkv by done. by apply (Hnone k v).
  - destruct (openers_single c key' K' Eo) as ([V' HV'] & HoK' & Hothers).
    assert (K' <> K) by (intros ->; by rewrite HK' in HoK').
    assert (A1 : Retrieve_range (set_DB c (<[K := V]> (DB c))) key'
                   (ord1 (map_to_list (<[K := V]> (DB c)))) =
                 match DecodeString V' with
                 | Some valueBytes => Decrypt c valueBytes
                 | None => Err (ErrKeyNotFound key')
                 end).
    { apply (Retrieve_range_found (set_DB c _) G key' _ K' V' HG HL Hnd1).
      - apply Hin1. by rewrite lookup_insert_ne.
      - done.
      - intros k v Hkv%Hin1 Hk. rewrite opens_to_set_DB.
        destruct (decide (k = K)) as [->|HkK]; [done|].
        rewrite lookup_insert_ne in Hkv by done. by apply (Hothers k v). }
    assert (A2 : Retrieve_range c key' (ord2 (map_to_list (DB c))) =
                 match DecodeString V' with
                 | Some valueBytes => Decrypt c valueBytes
                 | None => Err (ErrKeyNotFound key')
                 end).
    { apply (Retrieve_range_found c G key' _ K' V' HG HL Hnd2).
      - by apply Hin2.
      - done.
      - intros k v Hkv%Hin2 Hk. by apply (Hothers k v). }
    by rewrite A1, A2.
Qed.

Lemma Retrieve_other_after_Store_witness :
  Retrieve reverse (Store id demo_stored1.1.2 "b" "other" demo_stored1.2).1.2 "a"
  = Retrieve id demo_stored1.1.2 "a".
Proof.
  apply (Retrieve_other_after_Store id reverse id demo_stored1.1.2 (refGCM demo_key)
           "b" "other" "a" demo_stored1.2 _
           (Store id demo_stored1.1.2 "b" "other" demo_stored1.2).2).
  - reflexivity.
  - apply refGCM_lawful.
  - apply permutes_reverse.
  - apply permutes_id.
  - discriminate.
  - vm_compute. lia.
  - reflexivity.
Defined.

(** ** Changing the table *)

Lemma Delete_range_Some c key l K :
  Delete_range c key l = Ok (Some K) ->
  K <> "k" /\ opens_to c K key = true /\ exists v, (K, v) ∈ l.
Proof.
  induction l as [|[k v] l IH]; [done|]. cbn [Delete_range].
  assert (Hrest : Delete_range c key l = Ok (Some K) ->
    K <> "k" /\ opens_to c K key = true /\ exists v0, (K, v0) ∈ (k, v) :: l).
  { intros (? & ? & v0 & ?)%IH. repeat split; try done. exists v0. by right. }
  destruct (String.eqb k "k") eqn:Ek; [done|].
  destruct (DecodeString k) as [kb|] eqn:Ekb; [|done].
  destruct (Decrypt c kb) as [d| |] eqn:Ed; [|done..].
  destruct (String.eqb d key) eqn:Edk; [|done].
  intros [= <-]. apply String.eqb_neq in Ek. apply String.eqb_eq in Edk as ->.
  repeat split; [done| |exists v; by left].
  apply opens_to_true. split; [done|]. by exists kb.
Qed.

(** X15: Neither [Store] nor [Delete] touches the reserved record: whatever they
    return, the entry "k" of the table is what it was. *)
Theorem reserved_record_kept ord ord' (c : Config) (key value : string) (w : World) :
  DB (Store ord c key value w).1.2 !! "k" = DB c !! "k" /\
  DB (Delete ord ord' c key w).1.2 !! "k" = DB c !! "k".
Proof.
  split.
  - unfold Store.
    destruct (Encrypt c key w) as [[ekb| |] w1]; [|done..].
    destruct (Encrypt c value w1) as [[evb| |] w2]; [|done..].
    destruct (writeSecretsFile _ _ _) as [r w3]. cbn [fst snd DB set_DB].
    apply lookup_insert_ne, EncodeToString_not_k.
  - unfold Delete.
    destruct (Delete_range c key _) as [[K|]| |] eqn:E; [|done..].
    destruct (writeSecretsFile _ _ _) as [r w3]. cbn [fst snd DB set_DB].
    apply Delete_range_Some in E as [HK _]. by apply lookup_delete_ne.
Qed.

(** What [Encrypt] does when the random source can fill the nonce. *)
Lemma Encrypt_succeeds c G value w :
  GCM c = Some G -> LawfulAEAD G -> NonceSize G <= len (entropy w) ->
  exists sealed w', Encrypt c value w = (Ok sealed, w') /\
    Decrypt c sealed = Ok value /\ files w' = files w /\
    mkdir_fails w' = mkdir_fails w /\ write_fails w' = write_fails w /\
    len (entropy w') = len (entropy w) - NonceSize G.
Proof.
  intros HG HL Hent. pose proof (nonce_size_nonneg (G := G)) as Hn.
  unfold Encrypt, ReadFull. rewrite HG.
  destruct (Z.ltb_spec (len (entropy w)) (NonceSize G)); [lia|].
  eexists _, _. split; [done|]. cbn [files mkdir_fails write_fails entropy].
  repeat split; try done.
  - rewrite seal_appends. rewrite (Decrypt_sealed c G) by
      (done || (unfold len in *; rewrite length_take; lia)).
    by rewrite to_string_to_bytes.
  - unfold len in *. rewrite length_drop. lia.
Qed.

Lemma Encrypt_fails c G value w :
  GCM c = Some G -> len (entropy w) < NonceSize G ->
  exists w', Encrypt c value w = (Err ErrGenerateNonce, w') /\ files w' = files w.
Proof.
  intros HG Hent. unfold Encrypt, ReadFull. rewrite HG.
  destruct (Z.ltb_spec (len (entropy w)) (NonceSize G)); [|lia]. by eexists.
Qed.



(** X17: A [Store] that cannot draw its two nonces fails with "failed to encrypt
    key" or "failed to encrypt value" and changes neither the table nor any
    file. *)
Theorem Store_without_entropy ord (c : Config) (G : AEAD) (key value : string)
    (w : World) :
  GCM c = Some G -> LawfulAEAD G -> len (entropy w) < 2 * NonceSize G ->
  exists e w', Store ord c key value w = (Err e, c, w') /\
    e = (if len (entropy w) <? NonceSize G then ErrEncryptKey else ErrEncryptValue) /\
    files w' = files w.
Proof.
  intros HG HL Hent. unfold Store.
  destruct (Z.ltb_spec (len (entropy w)) (NonceSize G)) as [Hlt|Hge].
  - destruct (Encrypt_fails c G key w HG Hlt) as (w1 & -> & F1). by exists ErrEncryptKey, w1.
  - destruct (Encrypt_succeeds c G key w HG HL Hge) as (ekb & w1 & -> & _ & F1 & _ & _ & L1).
    destruct (Encrypt_fails c G value w1 HG) as (w2 & -> & F2); [lia|].
    exists ErrEncryptValue, w2. by rewrite F2, F1.
Qed.

Lemma Store_without_entropy_witness :
  exists e w',
    Store id demo_config "a" "b"
      {| files := ∅; mkdir_fails := false; write_fails := false;
         entropy := take 20 (entropy demo_world) |} = (Err e, demo_config, w') /\
    e = ErrEncryptValue /\ files w' = ∅.
Proof.
  apply (Store_without_entropy id demo_config (refGCM demo_key) "a" "b"
           {| files := ∅; mkdir_fails := false; write_fails := false;
              entropy := take 20 (entropy demo_world) |}).
  - reflexivity.
  - apply refGCM_lawful.
  - vm_compute. reflexivity.
Defined.

Lemma Delete_range_some c G key l :
  GCM c = Some G -> LawfulAEAD G ->
  (exists k v, (k, v) ∈ l /\ opens_to c k key = true) ->
  exists K, Delete_range c key l = Ok (Some K).
Proof.
  intros HG HL. induction l as [|[k v] l IH]; intros (k0 & v0 & Hin & Ho).
  { by apply elem_of_nil in Hin. }
  destruct (opens_to c k key) eqn:E.
  - exists k. by apply Delete_range_hit.
  - rewrite (Delete_range_skip c G) by done. apply IH.
    apply elem_of_cons in Hin as [[= -> ->]|Hin]; [congruence|].
    by exists k0, v0.
Qed.

(** X18: [Delete] removes one entry at a time: when at least one entry's key opens
    to the key, [Delete] takes exactly one such entry out of the table (the
    reserved record is never the one), leaves every other entry as it was,
    and returns what the write of the file returns. *)
Theorem Delete_removes_one ord ord' (c : Config) (G : AEAD) (key : string) (w : World) :
  GCM c = Some G -> LawfulAEAD G -> permutes ord ->
  openers c key <> [] ->
  exists K r w',
    Delete ord ord' c key w = (r, set_DB c (delete K (DB c)), w') /\
    K ∈ openers c key /\ K <> "k" /\
    (size (delete K (DB c)) + 1 = size (DB c))%nat /\
    (forall k, k <> K -> delete K (DB c) !! k = DB c !! k) /\
    (mkdir_fails w = false -> write_fails w = false -> r = Ok tt).
Proof.
  intros HG HL Hord Hne.
  destruct (openers c key) as [|K0 rest] eqn:Eo; [done|].
  assert (H0 : K0 ∈ openers c key) by (rewrite Eo; left).
  apply openers_spec in H0 as [[V0 HV0] Ho0].
  destruct (Delete_range_some c G key (ord (map_to_list (DB c))) HG HL) as [K EK].
  { exists K0, V0. split; [|done]. by apply (range_entries ord _ Hord). }
  pose proof EK as (HKk & HoK & v & Hin%(range_entries ord _ Hord))%Delete_range_Some.
  exists K, (writeSecretsFile ord' (set_DB c (delete K (DB c))) w).1,
         (writeSecretsFile ord' (set_DB c (delete K (DB c))) w).2.
  repeat split; try done.
  - unfold Delete. rewrite EK. by destruct (writeSecretsFile _ _ _).
  - rewrite <- Eo. apply openers_spec. split; [by exists v|done].
  - rewrite map_size_delete, Hin.
    assert (size (DB c) <> 0)%nat; [|lia].
    intros Hz%map_size_empty_iff. by rewrite Hz in Hin.
  - intros k Hk. by apply lookup_delete_ne.
  - apply writeSecretsFile_Ok.
Qed.

Lemma Delete_removes_one_witness :
  exists K r w',
    Delete id reverse demo_stored2.1.2 "a" demo_stored2.2
      = (r, set_DB demo_stored2.1.2 (delete K (DB demo_stored2.1.2)), w') /\
    K ∈ openers demo_stored2.1.2 "a" /\ K <> "k" /\
    (size (delete K (DB demo_stored2.1.2)) + 1 = size (DB demo_stored2.1.2))%nat /\
    (forall k, k <> K ->
       delete K (DB demo_stored2.1.2) !! k = DB demo_stored2.1.2 !! k) /\
    (mkdir_fails demo_stored2.2 = false -> write_fails demo_stored2.2 = false ->
     r = Ok tt).
Proof.
  apply (Delete_removes_one id reverse demo_stored2.1.2 (refGCM demo_key) "a"
           demo_stored2.2).
  - reflexivity.
  - apply refGCM_lawful.
  - apply permutes_id.
  - vm_compute. discriminate.
Defined.

(** X19: [Delete] undoes [Store]: in a store that did not hold the key, a
    successful [Store] of it followed by [Delete] of it gives back the table
    as it was before the two calls, and, when the write succeeds, a file that
    holds that table. *)
Theorem Delete_after_Store ord ord1 ord2 (c : Config) (G : AEAD) (key value : string)
    (w : World) (c' : Config) (w' : World) :
  GCM c = Some G -> LawfulAEAD G -> permutes ord1 ->
  openers c key = [] ->
  Store ord c key value w = (Ok tt, c', w') ->
  exists r w'',
    Delete ord1 ord2 c' key w' = (r, set_DB c (DB c), w'') /\
    (r = Ok tt ->
     files w'' !! ConfigFile c =
       Some (encode (size (DB c)) (ord2 (map_to_list (DB c))))).
Proof.
  intros HG HL Hord1 Hnone (ekb & evb & w1 & w2 & E1 & E2 & ->)%Store_Ok.
  pose proof (Decrypt_of_Encrypt _ _ _ _ _ _ HG HL E1) as Dk.
  set (K := EncodeToString ekb). set (V := EncodeToString evb).
  assert (HK : opens_to c K key = true).
  { apply opens_to_true. split; [apply EncodeToString_not_k|].
    exists ekb. by unfold K; rewrite DecodeString_EncodeToString. }
  assert (Hfresh : DB c !! K = None).
  { destruct (DB c !! K) as [v|] eqn:E; [|done].
    by rewrite (openers_nil c key Hnone K v E) in HK. }
  assert (Hback : delete K (<[K := V]> (DB c)) = DB c).
  { rewrite delete_insert_eq. by apply delete_id. }
  destruct (range_entries ord1 (<[K := V]> (DB c)) Hord1) as [_ Hin].
  exists (writeSecretsFile ord2 (set_DB c (DB c)) w').1,
         (writeSecretsFile ord2 (set_DB c (DB c)) w').2.
  split.
  - unfold Delete. cbn [DB set_DB].
    rewrite (Delete_range_found (set_DB c _) G key _ K V); try done.
    + cbn [DB set_DB]. rewrite Hback.
      change (set_DB (set_DB c (<[K := V]> (DB c))) (DB c)) with (set_DB c (DB c)).
      by destruct (writeSecretsFile _ _ _).
    + apply Hin, lookup_insert_eq.
    + intros k v Hkv%Hin Hne. rewrite opens_to_set_DB.
      rewrite lookup_insert_ne in Hkv by done.
      by apply (openers_nil c key Hnone k v).
  - destruct (writeSecretsFile ord2 (set_DB c (DB c)) w') as [r w''] eqn:Ew.
    cbn [fst snd]. intros ->.
    apply writeSecretsFile_inv in Ew as [(_ & _ & _ & ->)|(_ & [[? _]|[? _]])];
      [|done..].
    cbn [files WriteFile ConfigFile set_DB DB]. apply lookup_insert_eq.
Qed.

Lemma Delete_after_Store_witness :
  exists r w'',
    Delete reverse id demo_stored1.1.2 "a" demo_stored1.2
      = (r, set_DB demo_config (DB demo_config), w'') /\
    (r = Ok tt ->
     files w'' !! ConfigFile demo_config =
       Some (encode (size (DB demo_config)) (id (map_to_list (DB demo_config))))).
Proof.
  apply (Delete_after_Store id reverse id demo_config (refGCM demo_key) "a" "old"
           demo_world1 demo_stored1.1.2 demo_stored1.2).
  - reflexivity.
  - apply refGCM_lawful.
  - apply permutes_reverse.
  - vm_compute. reflexivity.
  - reflexivity.
Defined.

(** ** Across runs of the program *)

Lemma Store_Ok_file ord c key value w c' w' :
  Store ord c key value w = (Ok tt, c', w') ->
  ConfigFile c' = ConfigFile c /\ Key c' = Key c /\ GCM c' = GCM c /\
  DB c' !! "k" = DB c !! "k" /\
  files w' !! ConfigFile c =
    Some (encode (size (DB c')) (ord (map_to_list (DB c')))).
Proof.
  unfold Store.
  destruct (Encrypt c key w) as [[ekb| |] w1]; [|done..].
  destruct (Encrypt c value w1) as [[evb| |] w2]; [|done..].
  destruct (writeSecretsFile _ _ _) as [r w3] eqn:Ew. intros [= -> <- <-].
  cbn [ConfigFile Key GCM DB set_DB]. repeat split.
  - apply lookup_insert_ne, EncodeToString_not_k.
  - apply writeSecretsFile_inv in Ew as [(_ & _ & _ & ->)|(_ & [[? _]|[? _]])];
      [|done..].
    cbn [files WriteFile ConfigFile set_DB DB]. apply lookup_insert_eq.
Qed.

(** X20: What a successful [Store] leaves on disk is the store in memory: opening
    the same file again, in this or a later run, returns a [Config] equal to
    the one [Store] left, without writing anything. *)
Theorem reopen_after_Store ord ord1 aesgcm (c : Config) (key value : string)
    (w : World) (c' : Config) (w' : World) :
  permutes ord ->
  GCM c = Some (aesgcm (Key c)) ->
  DB c !! "k" = Some (Sprintf_x (Key c)) ->
  len (Key c) = 16 \/ len (Key c) = 24 \/ len (Key c) = 32 ->
  Store ord c key value w = (Ok tt, c', w') ->
  representable_db (DB c') ->
  NewConfigWithFile ord1 aesgcm (ConfigFile c) w' = (Ok c', w').
Proof.
  intros Hord HG Hk Hlen HS Hrep.
  pose proof HS as (Hf & HK & HG' & Hk' & Hfile)%Store_Ok_file.
  rewrite NewConfigWithFile_unfold. cbn zeta. rewrite Hfile.
  rewrite (openStore_written aesgcm _ w'
             (encode (size (DB c')) (ord (map_to_list (DB c')))) (DB c') (Key c)).
  - f_equal. f_equal. destruct c' as [f' k' g' d'].
    cbn [ConfigFile Key GCM DB] in *. subst f' k' g'. by rewrite HG.
  - exact Hfile.
  - by apply decode_written.
  - by rewrite Hk'.
  - intros E. rewrite E in Hlen. by destruct Hlen as [?|[?|?]].
  - done.
Qed.

Lemma reopen_after_Store_witness :
  NewConfigWithFile reverse refGCM (ConfigFile demo_stored1.1.2) demo_stored2.2
  = (Ok demo_stored2.1.2, demo_stored2.2).
Proof.
  apply (reopen_after_Store id reverse refGCM demo_stored1.1.2 "a" "new"
           demo_stored1.2 demo_stored2.1.2 demo_stored2.2).
  - apply permutes_id.
  - reflexivity.
  - reflexivity.
  - right; right. reflexivity.
  - reflexivity.
  - apply demo_table_representable.
Defined.





(** X23: What [Retrieve] can return once the cipher is in place: a value, the
    not-found error for the key asked, or one of the two errors of
    [Decrypt]; it never panics and returns no other error. *)
Theorem Retrieve_outcomes ord (c : Config) (G : AEAD) (key : string) :
  GCM c = Some G -> LawfulAEAD G ->
  match Retrieve ord c key with
  | Ok _ => True
  | Err e => e = ErrKeyNotFound key \/ e = ErrCiphertextTooShort \/ e = ErrDecrypt
  | Panic => False
  end.
Proof.
  intros HG HL. unfold Retrieve.
  induction (ord (map_to_list (DB c))) as [|[k v] l IH]; [by left|].
  cbn [Retrieve_range].
  destruct (String.eqb k "k"); [done|].
  destruct (DecodeString k) as [kb|]; [|done].
  pose proof (Decrypt_no_panic c G kb HG HL).
  destruct (Decrypt c kb) as [d| |]; [|done..].
  destruct (String.eqb d key); [|done].
  destruct (DecodeString v) as [vb|]; [|done].
  pose proof (Decrypt_no_panic c G vb HG HL).
  destruct (Decrypt c vb) as [x|e|] eqn:E; [done| |done].
  right. by apply (Decrypt_Err c vb).
Qed.

Lemma Retrieve_outcomes_witness :
  match Retrieve reverse demo_bad_value "a" with
  | Ok _ => True
  | Err e => e = ErrKeyNotFound "a" \/ e = ErrCiphertextTooShort \/ e = ErrDecrypt
  | Panic => False
  end.
Proof.
  apply (Retrieve_outcomes reverse demo_bad_value (refGCM demo_key) "a").
  - reflexivity.
  - apply refGCM_lawful.
Defined.

(* ================================================================== *)
(** * The JSON variant *)

Lemma Legacy_Decrypt_sealed (c : Legacy.Config) G nonce plaintext :
  Legacy.GCM c = Some G -> LawfulAEAD G -> len nonce = NonceSize G ->
  Legacy.Decrypt c (EncodeToString (nonce ++ Seal G [] nonce plaintext []))
  = Legacy.Ok (to_string plaintext).
Proof.
  intros HG HL Hn. unfold Legacy.Decrypt.
  rewrite DecodeString_EncodeToString, HG. cbn zeta.
  pose proof (len_nonneg (Seal G [] nonce plaintext [])).
  rewrite len_app.
  destruct (Z.ltb_spec (len nonce + len (Seal G [] nonce plaintext [])) (NonceSize G));
    [lia|].
  rewrite (slice_segment _ [] nonce (Seal G [] nonce plaintext []) 0 (NonceSize G));
    [| done | done | lia].
  rewrite (slice_segment _ nonce (Seal G [] nonce plaintext []) [] (NonceSize G)
             (len nonce + len (Seal G [] nonce plaintext [])));
    [| by rewrite app_nil_r | done | lia].
  by rewrite open_seal.
Qed.

(** X24: In the JSON variant too, [Decrypt] undoes [Encrypt]: whenever the random
    source can supply a nonce, [Encrypt] succeeds and [Decrypt] of the text
    it returns is the plaintext. *)
Theorem Legacy_Decrypt_Encrypt (c : Legacy.Config) (G : AEAD) (p : string) (w : World) :
  Legacy.GCM c = Some G -> LawfulAEAD G -> NonceSize G <= len (entropy w) ->
  exists sealed w', Legacy.Encrypt c p w = (Legacy.Ok sealed, w') /\
                    Legacy.Decrypt c sealed = Legacy.Ok p.
Proof.
  intros HG HL Hent. pose proof (nonce_size_nonneg (G := G)) as Hn.
  unfold Legacy.Encrypt, ReadFull. rewrite HG.
  destruct (Z.ltb_spec (len (entropy w)) (NonceSize G)); [lia|].
  eexists _, _. split; [done|]. cbn zeta.
  rewrite seal_appends, (Legacy_Decrypt_sealed c G); try done.
  - by rewrite to_string_to_bytes.
  - unfold len in *. rewrite length_take. lia.
Qed.

Lemma Legacy_Decrypt_Encrypt_witness :
  exists sealed w',
    Legacy.Encrypt (demo_legacy ∅) "secret123" demo_world1 = (Legacy.Ok sealed, w') /\
    Legacy.Decrypt (demo_legacy ∅) sealed = Legacy.Ok "secret123".
Proof.
  apply (Legacy_Decrypt_Encrypt (demo_legacy ∅) (refGCM demo_key) "secret123" demo_world1).
  - reflexivity.
  - apply refGCM_lawful.
  - vm_compute. discriminate.
Defined.

Lemma Legacy_Decrypt_no_panic (c : Legacy.Config) G v :
  Legacy.GCM c = Some G -> LawfulAEAD G -> Legacy.Decrypt c v <> Legacy.Panic.
Proof.
  intros HG HL. unfold Legacy.Decrypt.
  destruct (DecodeString v) as [data|]; [|done]. rewrite HG. cbn zeta.
  pose proof (nonce_size_nonneg (G := G)).
  destruct (Z.ltb_spec (len data) (NonceSize G)); [done|].
  rewrite !slice_Some by lia. by destruct (Open G _ _ _ _).
Qed.

(** X25: The scan of [Retrieve] in the JSON variant: it passes over the record "k"
    and the entries whose key [Decrypt] rejects; at the first entry whose key
    opens to the requested key it returns the result of [Decrypt] on the
    value when the value is a string, so a value that is not valid base64
    gives the error "failed to decode base64" to the caller; a value that is
    not a string is passed over. *)
Theorem Legacy_Retrieve_propagates (c : Legacy.Config) (key : string)
    (skipped : list (string * Legacy.value)) (k : string) (v : Legacy.value)
    (rest : list (string * Legacy.value)) :
  Forall (fun kv => kv.1 = "k" \/ exists e, Legacy.Decrypt c kv.1 = Legacy.Err e) skipped ->
  k <> "k" -> Legacy.Decrypt c k = Legacy.Ok key ->
  Legacy.Retrieve_range c key (skipped ++ (k, v) :: rest) =
    match v with
    | Legacy.VString valueStr => Legacy.Decrypt c valueStr
    | Legacy.VOther => Legacy.Retrieve_range c key rest
    end /\
  (forall valueStr, v = Legacy.VString valueStr -> DecodeString valueStr = None ->
     Legacy.Retrieve_range c key (skipped ++ (k, v) :: rest)
     = Legacy.Err Legacy.ErrDecodeBase64).
Proof.
  intros Hs Hk Hd.
  assert (Hhit : Legacy.Retrieve_range c key ((k, v) :: rest) =
    match v with
    | Legacy.VString valueStr => Legacy.Decrypt c valueStr
    | Legacy.VOther => Legacy.Retrieve_range c key rest
    end).
  { cbn [Legacy.Retrieve_range]. apply String.eqb_neq in Hk.
    by rewrite Hk, Hd, String.eqb_refl. }
  assert (Hskip : Legacy.Retrieve_range c key (skipped ++ (k, v) :: rest) =
                  Legacy.Retrieve_range c key ((k, v) :: rest)).
  { induction Hs as [|[k0 v0] l H0 _ IH]; [done|].
    cbn [app]. rewrite <- IH. cbn [Legacy.Retrieve_range fst] in *.
    destruct H0 as [->|[e He]]; [done|].
    destruct (String.eqb k0 "k"); [done|]. by rewrite He. }
  rewrite Hskip, Hhit. split; [done|].
  intros s -> Hs'. unfold Legacy.Decrypt. by rewrite Hs'.
Qed.

Lemma Legacy_Retrieve_propagates_witness :
  Legacy.Retrieve_range (demo_legacy ∅) "a"
    ([("k", Legacy.VString "00"); ("%%%", Legacy.VOther)]
     ++ (demo_sealed_key, Legacy.VString "not base64!") :: [])
  = Legacy.Err Legacy.ErrDecodeBase64.
Proof.
  apply (Legacy_Retrieve_propagates (demo_legacy ∅) "a"
           [("k", Legacy.VString "00"); ("%%%", Legacy.VOther)]
           demo_sealed_key (Legacy.VString "not base64!") [])
    with (valueStr := "not base64!").
  - constructor; [by left|]. constructor; [|constructor].
    right. exists Legacy.ErrDecodeBase64. vm_compute. reflexivity.
  - discriminate.
  - vm_compute. reflexivity.
  - reflexivity.
  - vm_compute. reflexivity.
Defined.
